(** * useDatabaseRef: binding a database reference to a reactive value

    A shallow embedding of [src/database/useDatabaseRef.ts].  The function
    [_useDatabaseRef] is modelled by explicit state passing over a [World]
    that holds the reactive refs, the promises created by the binds and a
    log of every call made into the external collaborators (the binder,
    the reactivity system, the server-rendering plugin).  What happens
    after the call returns (the watcher firing, the binder settling a
    promise, promise reactions running, the scope being disposed) is a
    list of [Event]s executed by [step]. *)

From stdpp Require Import gmap strings list fin_maps.

Set Warnings "-register-all".

Local Open Scope string_scope.
Local Open Scope list_scope.

(** ** Values *)

(** Addresses of reactive refs ([Ref<T>] objects). *)
Abbreviation addr := nat.

(** JavaScript values of type [unknown] stored in refs. *)
Inductive Val :=
| VUndefined
| VNull
| VBool (b : bool)
| VNum (n : Z)
| VStr (s : string)
| VArr (items : list Val)
| VObj (fields : list (string * Val))
| VPromise (p : nat)
| VError (message : string).

(** [DatabaseReference | Query] of the database client. *)
Inductive DataSource :=
| DatabaseReference (path : string)
| Query (path : string) (constraints : list string).

(** [_Nullable<T> = T | null | undefined]. *)
Inductive _Nullable (T : Type) :=
| JsNull
| JsUndefined
| Present (x : T).

Arguments JsNull {T}.

Arguments JsUndefined {T}.

Arguments Present {T} x.

(** [_MaybeRef<T> = T | Ref<T>]. *)
Inductive _MaybeRef (T : Type) :=
| Plain (x : T)
| Reactive (r : addr).

Arguments Plain {T} x.

Arguments Reactive {T} r.

(** [ResetOption = boolean | (() => unknown)]; a function is named by an
    identifier. *)
Inductive ResetOption :=
| ResetBool (b : bool)
| ResetFn (f : nat).

(** [_DatabaseRefOptions]: the four keys the function reads, and the
    remaining keys (serialize, wait, ...) kept as a map.  [None] is an
    absent key. *)
Record Options := {
  target : option addr;
  once : option bool;
  ssrKey : option string;
  reset : option ResetOption;
  other : gmap string Val;
}.

Definition no_options : Options :=
  {| target := None; once := None; ssrKey := None; reset := None; other := ∅ |}.

Definition override {A} (old new : option A) : option A :=
  match new with
  | Some _ => new
  | None => old
  end.

(** [Object.assign(o, src)]: every key of [src] overwrites the key of [o]. *)
Definition Object_assign (o src : Options) : Options :=
  {| target := override (target o) (target src);
     once := override (once o) (once src);
     ssrKey := override (ssrKey o) (ssrKey src);
     reset := override (reset o) (reset src);
     other := other src ∪ other o |}.

Definition set_once (b : bool) (o : Options) : Options :=
  {| target := target o; once := Some b; ssrKey := ssrKey o;
     reset := reset o; other := other o |}.

(** ** The world *)

(** The value a property getter returns: a ref, or the [stop] function of
    one call. *)
Inductive Getter :=
| GetRef (r : addr)
| GetStop (fn : nat).

(** A ref object: its [.value] and its own accessor properties, which are
    the ones [Object.defineProperties] created (not configurable). *)
Record Cell := {
  value : Val;
  accessors : gmap string Getter;
}.

Inductive PromiseState :=
| Unsettled
| Fulfilled (x : Val)
| Rejected (reason : Val).

(** The three promises of [new Promise(..).catch(..).finally(..)].
    [newPromise] is the last one; [owner] is the promise ref of the call
    whose [bindDatabaseRef] created the chain. *)
Record Chain := {
  owner : addr;
  executor : PromiseState;
  caught : PromiseState;
  final : PromiseState;
}.

(** Calls into the collaborators, with the handle each one returned. *)
Inductive Call :=
| CallWatch (h : nat) (source : addr)
| CallBindAsArray (h : nat) (tgt : addr) (source : DataSource) (p : nat) (opts : Options)
| CallBindAsObject (h : nat) (tgt : addr) (source : DataSource) (p : nat) (opts : Options)
| CallAddPendingPromise (h : nat) (p : Val) (source : DataSource)
| CallOnScopeDispose (fn : nat)
| CallOnServerPrefetch (promiseRef : addr)
| CallStopWatcher (h : nat)
| CallRemovePendingPromise (h : nat)
| CallUnbind (h : nat) (r : option ResetOption).

Record World := {
  heap : gmap addr Cell;
  sources : gmap addr (_Nullable DataSource);
  promises : gmap nat Chain;
  log : list Call;
  next : nat;
}.

Definition empty_world : World :=
  {| heap := ∅; sources := ∅; promises := ∅; log := []; next := 0 |}.

Definition set_heap (h : gmap addr Cell) (w : World) : World :=
  {| heap := h; sources := sources w; promises := promises w;
     log := log w; next := next w |}.

Definition set_sources (s : gmap addr (_Nullable DataSource)) (w : World) : World :=
  {| heap := heap w; sources := s; promises := promises w;
     log := log w; next := next w |}.

Definition set_promises (ps : gmap nat Chain) (w : World) : World :=
  {| heap := heap w; sources := sources w; promises := ps;
     log := log w; next := next w |}.

(** Hand out the next identifier. *)
Definition fresh (w : World) : nat * World :=
  (next w,
   {| heap := heap w; sources := sources w; promises := promises w;
      log := log w; next := S (next w) |}).

(** Append a call to the log. *)
Definition record (c : Call) (w : World) : World :=
  {| heap := heap w; sources := sources w; promises := promises w;
     log := log w ++ [c]; next := next w |}.

Definition read (w : World) (r : addr) : Val :=
  match heap w !! r with
  | Some c => value c
  | None => VUndefined
  end.

Definition props (w : World) (r : addr) : gmap string Getter :=
  match heap w !! r with
  | Some c => accessors c
  | None => ∅
  end.

(** [r.value = x]. *)
Definition write (r : addr) (x : Val) (w : World) : World :=
  set_heap (<[r := {| value := x; accessors := props w r |}]> (heap w)) w.

(** [ref(x)] and [shallowRef(x)]: a new ref without own properties. *)
Definition ref (x : Val) (w : World) : addr * World :=
  let '(r, w) := fresh w in
  (r, set_heap (<[r := {| value := x; accessors := ∅ |}]> (heap w)) w).

(** [unref(reference)]. *)
Definition unref (w : World) (reference : _MaybeRef (_Nullable DataSource))
  : _Nullable DataSource :=
  match reference with
  | Plain x => x
  | Reactive r =>
      match sources w !! r with
      | Some x => x
      | None => JsUndefined
      end
  end.

Definition isRef {T} (reference : _MaybeRef T) : bool :=
  match reference with
  | Plain _ => false
  | Reactive _ => true
  end.

Definition isArray (x : Val) : bool :=
  match x with
  | VArr _ => true
  | _ => false
  end.

(** [x === undefined]. *)
Definition is_undefined (x : Val) : bool :=
  match x with
  | VUndefined => true
  | _ => false
  end.

(** Truthiness of a nullable source: [!!x]. *)
Definition truthy {T} (x : _Nullable T) : bool :=
  match x with
  | Present _ => true
  | _ => false
  end.

(** [Object.defineProperties(r, descs)] with getter-only descriptors: the
    properties are defined in order; defining a name that the object
    already owns raises a TypeError ([Throw] with the world reached), since
    the existing property is not configurable and the getter is a new
    function. *)
Inductive Completion :=
| Normal (w : World)
| Throw (w : World).

Definition define_property (r : addr) (k : string) (g : Getter) (w : World) : World :=
  set_heap (<[r := {| value := read w r; accessors := <[k := g]> (props w r) |}]> (heap w)) w.

Fixpoint defineProperties (r : addr) (descs : list (string * Getter)) (w : World)
  : Completion :=
  match descs with
  | [] => Normal w
  | (k, g) :: rest =>
      match props w r !! k with
      | Some _ => Throw w
      | None => defineProperties r rest (define_property r k g w)
      end
  end.

(** ** The environment of a call *)

Definition FirebaseApp := string.

(** The imports the module does not define, and the ambient state it
    queries. *)
Record Env := {
  NODE_ENV : string;
  isSSR : bool;
  globalDatabaseOptions : Options;
  useFirebaseApp : FirebaseApp;
  getInitialValue :
    _Nullable DataSource -> option string -> Val -> FirebaseApp -> Val;
  checkWrittenTarget : World -> addr -> bool;
  getCurrentScope : bool;
  getCurrentInstance : bool;
}.

(** ** The closure of one call *)

(** A function-valued variable: [noop], or the function a collaborator
    returned. *)
Inductive Handle :=
| noop
| Returned (h : nat).

(** The [const] bindings the inner functions capture. *)
Record Closure := {
  reference : _MaybeRef (_Nullable DataSource);
  options : Options;
  data : addr;
  error : addr;
  pending : addr;
  promise : addr;
  stop_fn : nat;
}.

(** The [let] bindings.  [unbind] is declared without a value. *)
Record Vars := {
  unbind : option Handle;
  shouldStartAsPending : bool;
  removePendingPromise : Handle;
  stopWatcher : Handle;
}.

Definition set_unbind (h : Handle) (v : Vars) : Vars :=
  {| unbind := Some h; shouldStartAsPending := shouldStartAsPending v;
     removePendingPromise := removePendingPromise v; stopWatcher := stopWatcher v |}.

Definition set_shouldStartAsPending (b : bool) (v : Vars) : Vars :=
  {| unbind := unbind v; shouldStartAsPending := b;
     removePendingPromise := removePendingPromise v; stopWatcher := stopWatcher v |}.

Definition set_removePendingPromise (h : Handle) (v : Vars) : Vars :=
  {| unbind := unbind v; shouldStartAsPending := shouldStartAsPending v;
     removePendingPromise := h; stopWatcher := stopWatcher v |}.

(** ** Promises *)

(** [new Promise(executor)] followed by [.catch] and [.finally]: the three
    promises start unsettled. *)
Definition new_promise (own : addr) (w : World) : nat * World :=
  let '(p, w) := fresh w in
  (p, set_promises (<[p := {| owner := own; executor := Unsettled;
                              caught := Unsettled; final := Unsettled |}]> (promises w)) w).

(** [resolve(x)] and [reject(reason)] of the executor: only the first call
    settles the promise. *)
Definition settle (p : nat) (s : PromiseState) (w : World) : World :=
  match promises w !! p with
  | Some ch =>
      match executor ch with
      | Unsettled =>
          set_promises (<[p := {| owner := owner ch; executor := s;
                                  caught := caught ch; final := final ch |}]> (promises w)) w
      | _ => w
      end
  | None => w
  end.

Definition resolve (p : nat) (x : Val) : World -> World := settle p (Fulfilled x).

Definition reject (p : nat) (reason : Val) : World -> World := settle p (Rejected reason).

(** [promise.value === newPromise]. *)
Definition is_current (c : Closure) (p : nat) (w : World) : bool :=
  match read w (promise c) with
  | VPromise q => Nat.eqb q p
  | _ => false
  end.

(** ** bindDatabaseRef *)

Definition bindDatabaseRef (c : Closure) (v : Vars) (w : World) : Vars * World :=
  let referenceValue := unref w (reference c) in
  let '(newPromise, w) := new_promise (promise c) w in
  let '(v, w) :=
    match referenceValue with
    | Present source =>
        let w := write (pending c) (VBool (shouldStartAsPending v)) w in
        let v := set_shouldStartAsPending true v in
        let '(h, w) := fresh w in
        if isArray (read w (data c))
        then (set_unbind (Returned h) v,
              record (CallBindAsArray h (data c) source newPromise (options c)) w)
        else (set_unbind (Returned h) v,
              record (CallBindAsObject h (data c) source newPromise (options c)) w)
    | _ =>
        (set_unbind noop v, resolve newPromise VNull w)
    end in
  (v, write (promise c) (VPromise newPromise) w).

(** The reaction of [.catch]: it runs when the executor's promise is
    settled. A fulfilment passes through; on a rejection the handler runs
    and returns [Promise.reject(reason)]. *)
Definition catch_reaction (c : Closure) (p : nat) (w : World) : World :=
  match promises w !! p with
  | Some ch =>
      if negb (Nat.eqb (owner ch) (promise c)) then w else
      match executor ch, caught ch with
      | Fulfilled x, Unsettled =>
          set_promises (<[p := {| owner := owner ch; executor := executor ch;
                                  caught := Fulfilled x; final := final ch |}]> (promises w)) w
      | Rejected reason, Unsettled =>
          let w := if is_current c p w then write (error c) reason w else w in
          set_promises (<[p := {| owner := owner ch; executor := executor ch;
                                  caught := Rejected reason; final := final ch |}]> (promises w)) w
      | _, _ => w
      end
  | None => w
  end.

(** The reaction of [.finally]: it runs when the promise of [.catch] is
    settled, and [newPromise] settles the same way. *)
Definition finally_reaction (c : Closure) (p : nat) (w : World) : World :=
  match promises w !! p with
  | Some ch =>
      if negb (Nat.eqb (owner ch) (promise c)) then w else
      match caught ch, final ch with
      | Unsettled, _ => w
      | s, Unsettled =>
          let w := if is_current c p w then write (pending c) (VBool false) w else w in
          set_promises (<[p := {| owner := owner ch; executor := executor ch;
                                  caught := caught ch; final := s |}]> (promises w)) w
      | _, _ => w
      end
  | None => w
  end.

(** ** stop *)

(** Calling a function-valued variable; [noop] does nothing. *)
Definition call_handle (mk : nat -> Call) (h : Handle) (w : World) : World :=
  match h with
  | noop => w
  | Returned k => record (mk k) w
  end.

(** [stop(reset = options.reset)]: the default applies when the argument
    is undefined. Calling [unbind] before it is assigned would throw. *)
Definition stop (c : Closure) (v : Vars) (r : option ResetOption) (w : World)
  : Completion :=
  let r := match r with Some _ => r | None => reset (options c) end in
  let w := call_handle CallStopWatcher (stopWatcher v) w in
  let w := call_handle CallRemovePendingPromise (removePendingPromise v) w in
  match unbind v with
  | Some h => Normal (call_handle (fun k => CallUnbind k r) h w)
  | None => Throw w
  end.

(** ** _useDatabaseRef *)

Inductive Outcome :=
| EarlyReturn (r : addr) (w : World)
| Return (r : addr) (c : Closure) (v : Vars) (w : World)
| TypeError (c : Closure) (v : Vars) (w : World).

Definition _useDatabaseRef (env : Env)
    (reference : _MaybeRef (_Nullable DataSource)) (localOptions : Options)
    (w : World) : Outcome :=
  let options :=
    Object_assign (Object_assign no_options (globalDatabaseOptions env)) localOptions in
  let initialSourceValue := unref w reference in
  let '(data, w) :=
    match target options with
    | Some r => (r, w)
    | None => ref VUndefined w
    end in
  if negb (String.eqb (NODE_ENV env) "production")
     && (bool_decide (is_Some (target options)) && checkWrittenTarget env w data)
  then EarlyReturn data w
  else
    let options := if isSSR env then set_once true options else options in
    let w :=
      write data
        (getInitialValue env initialSourceValue (ssrKey options) (read w data)
           (useFirebaseApp env)) w in
    let shouldStartAsPending := is_undefined (read w data) in
    let '(error, w) := ref VUndefined w in
    let '(pending, w) := ref (VBool false) w in
    let '(promise, w) := ref VUndefined w in
    let hasCurrentScope := getCurrentScope env in
    let '(stop_fn, w) := fresh w in
    let c := {| reference := reference; options := options; data := data;
                error := error; pending := pending; promise := promise;
                stop_fn := stop_fn |} in
    let '(stopWatcher, w) :=
      match reference with
      | Reactive r => let '(h, w) := fresh w in (Returned h, record (CallWatch h r) w)
      | Plain _ => (noop, w)
      end in
    let v := {| unbind := None; shouldStartAsPending := shouldStartAsPending;
                removePendingPromise := noop; stopWatcher := stopWatcher |} in
    let '(v, w) := bindDatabaseRef c v w in
    let '(v, w) :=
      match initialSourceValue with
      | Present source =>
          let '(h, w) := fresh w in
          (set_removePendingPromise (Returned h) v,
           record (CallAddPendingPromise h (read w promise) source) w)
      | _ => (v, w)
      end in
    let w :=
      if hasCurrentScope
      then
        let w := record (CallOnScopeDispose stop_fn) w in
        if getCurrentInstance env then record (CallOnServerPrefetch promise) w else w
      else w in
    match defineProperties data
            [("data", GetRef data); ("error", GetRef error);
             ("pending", GetRef pending); ("promise", GetRef promise);
             ("stop", GetStop stop_fn)] w with
    | Normal w => Return data c v w
    | Throw w => TypeError c v w
    end.

(** ** What happens after the call *)

Definition is_stop_watcher (h : nat) (c : Call) : bool :=
  match c with
  | CallStopWatcher k => Nat.eqb h k
  | _ => false
  end.

Definition is_on_scope_dispose (fn : nat) (c : Call) : bool :=
  match c with
  | CallOnScopeDispose k => Nat.eqb fn k
  | _ => false
  end.

(** The watcher behind handle [h] has not been stopped. *)
Definition watcher_running (h : nat) (w : World) : bool :=
  negb (existsb (is_stop_watcher h) (log w)).

Definition world_of (r : Completion) : World :=
  match r with
  | Normal w => w
  | Throw w => w
  end.

Inductive Event :=
| SetReference (x : _Nullable DataSource)  (* reference.value = x *)
| WatcherCallback                          (* the watcher calls its callback *)
| BinderResolves (p : nat) (x : Val)       (* the binder calls resolve(x) *)
| BinderRejects (p : nat) (reason : Val)   (* the binder calls reject(reason) *)
| BinderWrites (x : Val)                   (* the binder sets data.value *)
| CatchReaction (p : nat)                  (* job of the .catch handler *)
| FinallyReaction (p : nat)                (* job of the .finally handler *)
| ScopeDispose                             (* the owning scope is disposed *)
| StopCalled (r : option ResetOption).     (* the user calls stop(r) *)

Definition step (c : Closure) (e : Event) (s : Vars * World) : Vars * World :=
  let '(v, w) := s in
  match e with
  | SetReference x =>
      match reference c with
      | Reactive r => (v, set_sources (<[r := x]> (sources w)) w)
      | Plain _ => (v, w)
      end
  | WatcherCallback =>
      match stopWatcher v with
      | Returned h => if watcher_running h w then bindDatabaseRef c v w else (v, w)
      | noop => (v, w)
      end
  | BinderResolves p x => (v, resolve p x w)
  | BinderRejects p reason => (v, reject p reason w)
  | BinderWrites x => (v, write (data c) x w)
  | CatchReaction p => (v, catch_reaction c p w)
  | FinallyReaction p => (v, finally_reaction c p w)
  | ScopeDispose =>
      if existsb (is_on_scope_dispose (stop_fn c)) (log w)
      then (v, world_of (stop c v None w))
      else (v, w)
  | StopCalled r => (v, world_of (stop c v r w))
  end.

Definition run (c : Closure) (es : list Event) (s : Vars * World) : Vars * World :=
  foldl (fun s e => step c e s) s es.

(** The hook given to [onServerPrefetch]: [() => promise.value]. *)
Definition server_prefetch_hook (c : Closure) (w : World) : Val :=
  read w (promise c).

(** The closure a call created, with the state it left behind. A call
    that ends in the TypeError has created it as well. *)
Definition started (o : Outcome) : option (Closure * Vars * World) :=
  match o with
  | EarlyReturn _ _ => None
  | Return _ c v w => Some (c, v, w)
  | TypeError c v w => Some (c, v, w)
  end.

(** The calls logged since the world [w0]. *)
Definition calls_since (w0 w : World) : list Call :=
  drop (length (log w0)) (log w).

(** ** The words of the claims *)

(** [Object.assign({}, globalDatabaseOptions, localOptions)]. *)
Definition merged (env : Env) (localOptions : Options) : Options :=
  Object_assign (Object_assign no_options (globalDatabaseOptions env)) localOptions.

(** The options object after the server-rendering adjustment. *)
Definition effective_options (env : Env) (localOptions : Options) : Options :=
  if isSSR env then set_once true (merged env localOptions) else merged env localOptions.

(** The development-only check of a target that was written before. *)
Definition written_target_guard (env : Env) (localOptions : Options) (w : World) : bool :=
  negb (String.eqb (NODE_ENV env) "production")
  && match target (merged env localOptions) with
     | Some r => checkWrittenTarget env w r
     | None => false
     end.

(** The caller's target, when there is one, is a ref of the world. *)
Definition valid_target (localOptions : Options) (env : Env) (w : World) : Prop :=
  ∀ r, target (merged env localOptions) = Some r → r < next w.

(** The target, when there is one, is a ref that no call has augmented. *)
Definition plain_target (localOptions : Options) (env : Env) (w : World) : Prop :=
  ∀ r, target (merged env localOptions) = Some r → props w r = ∅.

(** The five accessors of lines 155-162. *)
Definition status_accessors (c : Closure) : gmap string Getter :=
  {[ "data" := GetRef (data c); "error" := GetRef (error c);
     "pending" := GetRef (pending c); "promise" := GetRef (promise c);
     "stop" := GetStop (stop_fn c) ]}.

(** The four refs of a closure are different objects. *)
Definition distinct_refs (c : Closure) : Prop :=
  NoDup [data c; error c; pending c; promise c].

(** * bindDatabaseRef, case by case *)

(** The call made to the binder. *)
Definition binder_call (array : bool) (h : nat) (c : Closure) (source : DataSource)
    (p : nat) : Call :=
  if array
  then CallBindAsArray h (data c) source p (options c)
  else CallBindAsObject h (data c) source p (options c).

Definition new_chain (own : addr) : Chain :=
  {| owner := own; executor := Unsettled; caught := Unsettled; final := Unsettled |}.

(** * The states a call goes through *)

Section Call.
Variables (env : Env) (source : _MaybeRef (_Nullable DataSource))
          (localOptions : Options) (w0 : World).

(** Line 47: the data ref and the world that holds it. *)
Definition data_ref : addr :=
  match target (merged env localOptions) with
  | Some r => r
  | None => next w0
  end.

Definition world_with_data : World :=
  match target (merged env localOptions) with
  | Some _ => w0
  | None => (ref VUndefined w0).2
  end.

(** Lines 66-71: the value read from the server-rendered state. *)
Definition hydrated_value : Val :=
  getInitialValue env (unref w0 source)
    (ssrKey (effective_options env localOptions))
    (read world_with_data data_ref) (useFirebaseApp env).

Definition hydrated_world : World := write data_ref hydrated_value world_with_data.

(** Lines 76-79 and the [stop] function. *)
Definition closure : Closure :=
  let n := next hydrated_world in
  {| reference := source; options := effective_options env localOptions;
     data := data_ref; error := n; pending := S n; promise := S (S n);
     stop_fn := S (S (S n)) |}.

Definition world_with_refs : World :=
  (fresh (ref VUndefined (ref (VBool false) (ref VUndefined hydrated_world).2).2).2).2.

(** Lines 127-130: the state in which [bindDatabaseRef] is first called. *)
Definition vars_before_bind : Vars :=
  {| unbind := None;
     shouldStartAsPending := is_undefined (read hydrated_world data_ref);
     removePendingPromise := noop;
     stopWatcher := if isRef source
                    then Returned (next world_with_refs) else noop |}.

Definition world_before_bind : World :=
  match source with
  | Reactive r => record (CallWatch (next world_with_refs) r) (fresh world_with_refs).2
  | Plain _ => world_with_refs
  end.

(** Lines 133-145, from the state the first bind left. *)
Definition register_hooks (s : Vars * World) : Vars * World :=
  let '(v, w) := s in
  let '(v, w) :=
    match unref w0 source with
    | Present src =>
        (set_removePendingPromise (Returned (next w)) v,
         record (CallAddPendingPromise (next w) (read w (promise closure)) src)
           (fresh w).2)
    | _ => (v, w)
    end in
  (v,
   if getCurrentScope env
   then
     let w := record (CallOnScopeDispose (stop_fn closure)) w in
     if getCurrentInstance env
     then record (CallOnServerPrefetch (promise closure)) w else w
   else w).

(** Lines 155-162. *)
Definition descriptors : list (string * Getter) :=
  [("data", GetRef (data closure)); ("error", GetRef (error closure));
   ("pending", GetRef (pending closure)); ("promise", GetRef (promise closure));
   ("stop", GetStop (stop_fn closure))].

Definition registered : Vars * World :=
  register_hooks (bindDatabaseRef closure vars_before_bind world_before_bind).

End Call.

(** * Invariants of the states after a call *)

(** The calls that can be made after [_useDatabaseRef] has returned:
    binder calls for the closure's data ref with its options, and the
    three calls of [stop]. *)
Definition later_call (c : Closure) (call : Call) : Prop :=
  match call with
  | CallBindAsArray _ tgt _ _ opts => tgt = data c ∧ opts = options c
  | CallBindAsObject _ tgt _ _ opts => tgt = data c ∧ opts = options c
  | CallStopWatcher _ => True
  | CallRemovePendingPromise _ => True
  | CallUnbind _ _ => True
  | _ => False
  end.

Record Inv (w0 : World) (c : Closure) (v : Vars) (w : World) : Prop := {
  inv_distinct : distinct_refs c;
  inv_promise : ∃ q, read w (promise c) = VPromise q ∧ q < next w;
  inv_log : ∃ l, log w = log w0 ++ l;
  inv_unbind : ∃ h, unbind v = Some h ∧
      ∀ k, h = Returned k →
        ∃ array src p, binder_call array k c src p ∈ calls_since w0 w;
}.

(** One step keeps the function-valued variables that only the call
    itself assigns, and appends later calls to the log. *)
Definition extends (c : Closure) (s s' : Vars * World) : Prop :=
  stopWatcher s'.1 = stopWatcher s.1 ∧
  removePendingPromise s'.1 = removePendingPromise s.1 ∧
  ∃ l, log s'.2 = log s.2 ++ l ∧ Forall (later_call c) l.

(** The calls [stop] makes, in order. *)
Definition handle_calls (mk : nat → Call) (h : Handle) : list Call :=
  match h with
  | noop => []
  | Returned k => [mk k]
  end.

Definition stop_calls (c : Closure) (v : Vars) (r : option ResetOption) : list Call :=
  handle_calls CallStopWatcher (stopWatcher v)
  ++ handle_calls CallRemovePendingPromise (removePendingPromise v)
  ++ match unbind v with
     | Some h => handle_calls (λ k, CallUnbind k (override (reset (options c)) r)) h
     | None => []
     end.

Section StartStateDefs.
Variables (env : Env) (source : _MaybeRef (_Nullable DataSource))
          (localOptions : Options) (w0 : World).
Local Abbreviation c := (closure env source localOptions w0).
Local Abbreviation wb := (world_before_bind env source localOptions w0).
Local Abbreviation vb := (vars_before_bind env source localOptions w0).
Local Abbreviation dref := (data_ref env localOptions w0).
Local Abbreviation hydrated := (hydrated_value env source localOptions w0).

(** The calls of lines 127-130. *)
Definition watch_calls : list Call :=
  match source with
  | Reactive r => [CallWatch (next (world_with_refs env source localOptions w0)) r]
  | Plain _ => []
  end.

(** The identifiers handed out from the first bind on. *)
Definition first_promise : nat := next wb.

Definition first_unbind : nat := S (next wb).

Definition pending_handle : nat := S (S (next wb)).

(** The calls of the first bind, of lines 133-136 and of lines 138-145. *)
Definition bind_calls : list Call :=
  match unref w0 source with
  | Present src => [binder_call (isArray hydrated) first_unbind c src first_promise]
  | _ => []
  end.

Definition pending_calls : list Call :=
  match unref w0 source with
  | Present src => [CallAddPendingPromise pending_handle (VPromise first_promise) src]
  | _ => []
  end.

Definition scope_calls : list Call :=
  if getCurrentScope env
  then CallOnScopeDispose (stop_fn c)
       :: (if getCurrentInstance env then [CallOnServerPrefetch (promise c)] else [])
  else [].

Definition first_chain : Chain :=
  {| owner := promise c;
     executor := if truthy (unref w0 source) then Unsettled else Fulfilled VNull;
     caught := Unsettled; final := Unsettled |}.

Definition start_vars : Vars :=
  {| unbind := Some (if truthy (unref w0 source) then Returned first_unbind else noop);
     shouldStartAsPending :=
       if truthy (unref w0 source) then true else is_undefined hydrated;
     removePendingPromise :=
       if truthy (unref w0 source) then Returned pending_handle else noop;
     stopWatcher :=
       if isRef source
       then Returned (next (world_with_refs env source localOptions w0))
       else noop |}.

Definition heap_after_bind : gmap addr Cell :=
  heap (write (promise c) (VPromise first_promise)
          (if truthy (unref w0 source)
           then write (pending c) (VBool (is_undefined hydrated)) wb
           else wb)).

(** What a call that got past the development-only check leaves. *)
Record StartFacts (c1 : Closure) (v1 : Vars) (w1 : World) : Prop := {
  sf_guard : written_target_guard env localOptions w0 = false;
  sf_closure : c1 = c;
  sf_vars : v1 = start_vars;
  sf_log : log w1 = log w0 ++ watch_calls ++ bind_calls ++ pending_calls ++ scope_calls;
  sf_next : next w1 = if truthy (unref w0 source) then S pending_handle else S (next wb);
  sf_promises : promises w1 = <[first_promise := first_chain]> (promises wb);
  sf_sources : sources w1 = sources w0;
  sf_promise : read w1 (promise c) = VPromise first_promise;
  sf_pending :
    read w1 (pending c) = VBool (truthy (unref w0 source) && is_undefined hydrated);
  sf_error : read w1 (error c) = VUndefined;
  sf_data : read w1 dref = hydrated;
}.

End StartStateDefs.

(** * A development-mode application

    The environment used to run the code on concrete inputs: development
    mode, on the client, inside a component. The server-rendered state
    holds one entry; [getInitialValue] looks the key up in it when there
    is a data source and falls back to the value the ref had.
    [checkWrittenTarget] is true of a ref that already carries the [data]
    accessor pointing to itself, which is what an earlier call leaves. *)

Definition todos : DataSource := DatabaseReference "todos".

Definition ssr_state : gmap string Val := {[ "todos" := VArr [VStr "milk"] ]}.

Definition lookup_initial_value (source : _Nullable DataSource) (key : option string)
    (fallback : Val) (app : FirebaseApp) : Val :=
  match source, key with
  | Present _, Some k => default fallback (ssr_state !! k)
  | _, _ => fallback
  end.

Definition has_data_accessor (w : World) (r : addr) : bool :=
  match props w r !! "data" with
  | Some (GetRef r') => Nat.eqb r' r
  | _ => false
  end.

Definition dev_env : Env :=
  {| NODE_ENV := "development"; isSSR := false;
     globalDatabaseOptions := no_options; useFirebaseApp := "[DEFAULT]";
     getInitialValue := lookup_initial_value;
     checkWrittenTarget := has_data_accessor;
     getCurrentScope := true; getCurrentInstance := true |}.

(** The final world and the data ref of a call, whatever its outcome. *)
Definition outcome_world (o : Outcome) : World :=
  match o with
  | EarlyReturn _ w => w
  | Return _ _ _ w => w
  | TypeError _ _ w => w
  end.

Definition outcome_data (o : Outcome) : addr :=
  match o with
  | EarlyReturn r _ => r
  | Return r _ _ _ => r
  | TypeError c _ _ => data c
  end.

(** A first call, [useDatabaseRef(todos)], and the world it leaves. *)
Definition first_call : Outcome :=
  _useDatabaseRef dev_env (Plain (Present todos)) no_options empty_world.

Definition world_after_first_call : World := outcome_world first_call.

(** Options that pass the ref returned by the first call as the target. *)
Definition reuse_target : Options :=
  {| target := Some (outcome_data first_call); once := None;
     ssrKey := Some "todos"; reset := None; other := ∅ |}.

(** * C3: hydration of the data ref *)

(** The value the data ref had before the call: the value of the target,
    or undefined for a ref the call creates. *)
Definition prior_value (env : Env) (localOptions : Options) (w0 : World) : Val :=
  match target (merged env localOptions) with
  | Some r => read w0 r
  | None => VUndefined
  end.

(** The words of the claim: once the call is over, the data ref holds what
    [getInitialValue] gave for the unwrapped reference, the ssrKey option,
    the prior value and the firebase app. *)
Definition hydrates_data (env : Env) (source : _MaybeRef (_Nullable DataSource))
    (localOptions : Options) (w0 : World) : Prop :=
  let o := _useDatabaseRef env source localOptions w0 in
  read (outcome_world o) (outcome_data o)
  = getInitialValue env (unref w0 source) (ssrKey (merged env localOptions))
      (prior_value env localOptions w0) (useFirebaseApp env).

(** A target that holds a list, as a list composable passes it. *)
Definition world_with_list : World :=
  (ref (VArr []) empty_world).2.

Definition list_target (key : option string) : Options :=
  {| target := Some 0; once := None; ssrKey := key; reset := None; other := ∅ |}.

(** The closure and the variables the first call of the example leaves. *)
Definition first_closure : Closure :=
  closure dev_env (Plain (Present todos)) no_options empty_world.

Definition first_vars : Vars :=
  start_vars dev_env (Plain (Present todos)) no_options empty_world.

(** Filtering the log by the kind of call. *)
Definition is_watch (call : Call) : bool :=
  match call with CallWatch _ _ => true | _ => false end.

Definition is_add_pending (call : Call) : bool :=
  match call with CallAddPendingPromise _ _ _ => true | _ => false end.

Definition is_server_prefetch (call : Call) : bool :=
  match call with CallOnServerPrefetch _ => true | _ => false end.

Definition is_binder_call (call : Call) : bool :=
  match call with
  | CallBindAsArray _ _ _ _ _ => true
  | CallBindAsObject _ _ _ _ _ => true
  | _ => false
  end.

(** A reference ref the caller created, [ref(x)], for the examples. *)
Definition new_source (x : _Nullable DataSource) (w : World) : addr * World :=
  let '(r, w) := fresh w in
  (r, set_sources (<[r := x]> (sources w)) w).

(** A list target (ref 0) and a reference ref (ref 1) that holds null. *)
Definition list_world : World := (new_source JsNull world_with_list).2.

Definition list_call : Outcome :=
  _useDatabaseRef dev_env (Reactive 1) (list_target None) list_world.

Definition list_closure : Closure :=
  closure dev_env (Reactive 1) (list_target None) list_world.

Definition list_vars : Vars :=
  start_vars dev_env (Reactive 1) (list_target None) list_world.

(** * C10: once, during server-side rendering *)

Definition fetches_once (call : Call) : Prop :=
  match call with
  | CallBindAsArray _ _ _ _ opts => once opts = Some true
  | CallBindAsObject _ _ _ _ opts => once opts = Some true
  | _ => True
  end.

(** The server-side environment: the caller asks for once = false. *)
Definition ssr_env : Env :=
  {| NODE_ENV := "production"; isSSR := true;
     globalDatabaseOptions := no_options; useFirebaseApp := "[DEFAULT]";
     getInitialValue := lookup_initial_value;
     checkWrittenTarget := has_data_accessor;
     getCurrentScope := true; getCurrentInstance := true |}.

Definition not_once : Options :=
  {| target := None; once := Some false; ssrKey := None; reset := None; other := ∅ |}.

Definition ssr_closure : Closure :=
  closure ssr_env (Plain (Present todos)) not_once empty_world.

Definition ssr_vars : Vars :=
  start_vars ssr_env (Plain (Present todos)) not_once empty_world.

Definition ssr_world : World :=
  outcome_world (_useDatabaseRef ssr_env (Plain (Present todos)) not_once empty_world).

(** ** A target that an earlier call has written *)

Definition prod_env : Env :=
  {| NODE_ENV := "production"; isSSR := false;
     globalDatabaseOptions := no_options; useFirebaseApp := "[DEFAULT]";
     getInitialValue := lookup_initial_value;
     checkWrittenTarget := has_data_accessor;
     getCurrentScope := true; getCurrentInstance := true |}.

(** ** What changes error.value and data.value *)

Definition is_catch_reaction (e : Event) : bool :=
  match e with CatchReaction _ => true | _ => false end.

Definition is_binder_write (e : Event) : bool :=
  match e with BinderWrites _ => true | _ => false end.

(** ** Binder calls over time *)

Definition is_unbind (call : Call) : bool :=
  match call with CallUnbind _ _ => true | _ => false end.

Definition is_stop_event (e : Event) : bool :=
  match e with
  | ScopeDispose => true
  | StopCalled _ => true
  | _ => false
  end.

(** The watcher, if there is one, has been stopped. *)
Definition inert (v : Vars) (w : World) : Prop :=
  match stopWatcher v with
  | noop => True
  | Returned h => watcher_running h w = false
  end.

(** The state after two rebinds of the list example: promise 8 has been
    superseded by promise 10. *)
Definition twice_rebound : Vars * World :=
  run list_closure
    [SetReference (Present todos); WatcherCallback;
     SetReference (Present (DatabaseReference "archive")); WatcherCallback]
    (list_vars, outcome_world list_call).

(** * Lemmas and theorems *)

(** * Lemmas on the world *)

Section WorldLemmas.
Implicit Types (w : World) (r a : addr) (x : Val).

Lemma read_write_eq r x w : read (write r x w) r = x.
Proof. unfold read, write; simpl. by rewrite lookup_insert_eq. Qed.

Lemma read_write_ne r a x w : r ≠ a → read (write r x w) a = read w a.
Proof. intros H. unfold read, write; simpl. by rewrite lookup_insert_ne. Qed.

Lemma props_write r a x w : props (write r x w) a = props w a.
Proof.
  unfold props at 1, write; simpl.
  destruct (decide (r = a)) as [->|H].
  - by rewrite lookup_insert_eq.
  - by rewrite lookup_insert_ne.
Qed.

Lemma next_write r x w : next (write r x w) = next w.
Proof. done. Qed.

Lemma log_write r x w : log (write r x w) = log w.
Proof. done. Qed.

Lemma promises_write r x w : promises (write r x w) = promises w.
Proof. done. Qed.

Lemma sources_write r x w : sources (write r x w) = sources w.
Proof. done. Qed.

Lemma read_ref_new x w : read (ref x w).2 (ref x w).1 = x.
Proof. unfold read, ref; simpl. by rewrite lookup_insert_eq. Qed.

Lemma read_ref_old x w a : a ≠ next w → read (ref x w).2 a = read w a.
Proof. intros H. unfold read, ref; simpl. by rewrite lookup_insert_ne. Qed.

Lemma props_ref_new x w : props (ref x w).2 (next w) = ∅.
Proof. unfold props, ref; simpl. by rewrite lookup_insert_eq. Qed.

Lemma props_ref_old x w a : a ≠ next w → props (ref x w).2 a = props w a.
Proof. intros H. unfold props, ref; simpl. by rewrite lookup_insert_ne. Qed.

Lemma read_record c w a : read (record c w) a = read w a.
Proof. done. Qed.

Lemma read_set_promises ps w a : read (set_promises ps w) a = read w a.
Proof. done. Qed.

Lemma read_settle p s w a : read (settle p s w) a = read w a.
Proof. unfold settle. repeat case_match; done. Qed.

Lemma log_settle p s w : log (settle p s w) = log w.
Proof. unfold settle. repeat case_match; done. Qed.

Lemma next_settle p s w : next (settle p s w) = next w.
Proof. unfold settle. repeat case_match; done. Qed.

Lemma heap_settle p s w : heap (settle p s w) = heap w.
Proof. unfold settle. repeat case_match; done. Qed.

Lemma props_define_eq r k g w :
  props (define_property r k g w) r = <[k := g]> (props w r).
Proof. unfold props at 1, define_property; simpl. by rewrite lookup_insert_eq. Qed.

Lemma read_define r k g w a : read (define_property r k g w) a = read w a.
Proof.
  unfold read at 1, define_property; simpl.
  destruct (decide (r = a)) as [->|H].
  - by rewrite lookup_insert_eq.
  - by rewrite lookup_insert_ne.
Qed.

End WorldLemmas.

Lemma bindDatabaseRef_present c v w source :
  unref w (reference c) = Present source →
  let w1 := write (pending c) (VBool (shouldStartAsPending v)) w in
  bindDatabaseRef c v w =
    (set_unbind (Returned (S (next w))) (set_shouldStartAsPending true v),
     {| heap := heap (write (promise c) (VPromise (next w)) w1);
        sources := sources w;
        promises := <[next w := new_chain (promise c)]> (promises w);
        log := log w ++ [binder_call (isArray (read w1 (data c))) (S (next w)) c source (next w)];
        next := S (S (next w)) |}).
Proof.
  intros Hsrc. unfold bindDatabaseRef. rewrite Hsrc.
  unfold binder_call, new_promise, fresh, record, write, read, props, set_heap,
    set_promises; simpl.
  match goal with |- context [isArray ?x] => destruct (isArray x) end; reflexivity.
Qed.

Lemma bindDatabaseRef_absent c v w :
  truthy (unref w (reference c)) = false →
  bindDatabaseRef c v w =
    (set_unbind noop v,
     {| heap := heap (write (promise c) (VPromise (next w)) w);
        sources := sources w;
        promises := <[next w := {| owner := promise c; executor := Fulfilled VNull;
                                   caught := Unsettled; final := Unsettled |}]> (promises w);
        log := log w;
        next := S (next w) |}).
Proof.
  intros Hsrc. unfold bindDatabaseRef.
  assert (Hres : ∀ w0 : World,
    resolve (next w) VNull
      (set_promises (<[next w := new_chain (promise c)]> (promises w0)) w0)
    = set_promises (<[next w := {| owner := promise c; executor := Fulfilled VNull;
                                   caught := Unsettled; final := Unsettled |}]> (promises w0)) w0).
  { intros w0. unfold resolve, settle. simpl. rewrite lookup_insert_eq. simpl.
    by rewrite insert_insert_eq. }
  destruct (unref w (reference c)); try discriminate; simpl;
    unfold new_promise, fresh; simpl.
  all: match goal with
       | |- context [resolve _ _ ?W] =>
           change W with (set_promises (<[next w := new_chain (promise c)]>
             (promises {| heap := heap w; sources := sources w; promises := promises w;
                          log := log w; next := S (next w) |}))
             {| heap := heap w; sources := sources w; promises := promises w;
                log := log w; next := S (next w) |})
       end; rewrite Hres; reflexivity.
Qed.

Lemma useDatabaseRef_guarded env source localOptions w0 :
  written_target_guard env localOptions w0 = true →
  _useDatabaseRef env source localOptions w0
  = EarlyReturn (data_ref env localOptions w0) w0.
Proof.
  unfold written_target_guard, _useDatabaseRef, data_ref. fold (merged env localOptions).
  destruct (target (merged env localOptions)) as [r|].
  - intros Hg. cbv beta iota zeta.
    rewrite bool_decide_true by eauto. rewrite andb_true_l. by rewrite Hg.
  - rewrite ?andb_false_r. discriminate.
Qed.

Lemma useDatabaseRef_main env source localOptions w0 :
  written_target_guard env localOptions w0 = false →
  _useDatabaseRef env source localOptions w0 =
    match defineProperties (data_ref env localOptions w0)
            (descriptors env source localOptions w0)
            (registered env source localOptions w0).2 with
    | Normal w =>
        Return (data_ref env localOptions w0) (closure env source localOptions w0)
          (registered env source localOptions w0).1 w
    | Throw w =>
        TypeError (closure env source localOptions w0)
          (registered env source localOptions w0).1 w
    end.
Proof.
  intros Hg. unfold _useDatabaseRef. fold (merged env localOptions).
  assert (Hdata :
    match target (merged env localOptions) with
    | Some r => (r, w0)
    | None => ref VUndefined w0
    end = (data_ref env localOptions w0, world_with_data env localOptions w0)).
  { unfold data_ref, world_with_data.
    by destruct (target (merged env localOptions)). }
  rewrite Hdata. cbv beta iota zeta.
  assert (Hguard :
    negb (String.eqb (NODE_ENV env) "production")
    && (bool_decide (is_Some (target (merged env localOptions)))
        && checkWrittenTarget env (world_with_data env localOptions w0)
             (data_ref env localOptions w0)) = false).
  { transitivity (written_target_guard env localOptions w0); [| exact Hg].
    unfold written_target_guard, world_with_data, data_ref.
    destruct (target (merged env localOptions)).
    - by rewrite bool_decide_true by eauto.
    - by rewrite bool_decide_false by (by intros [? ?]). }
  rewrite Hguard. clear Hguard Hdata.
  change (write (data_ref env localOptions w0) _ (world_with_data env localOptions w0))
    with (hydrated_world env source localOptions w0).
  repeat match goal with
         | |- context [match ref ?x ?w with pair _ _ => _ end] =>
             rewrite (surjective_pairing (ref x w)); cbv beta iota zeta
         | |- context [match fresh ?w with pair _ _ => _ end] =>
             rewrite (surjective_pairing (fresh w)); cbv beta iota zeta
         end.
  unfold registered, register_hooks.
  destruct source as [x|r]; cbv beta iota zeta.
  - change (bindDatabaseRef _ _ _) with
      (bindDatabaseRef (closure env (Plain x) localOptions w0)
         (vars_before_bind env (Plain x) localOptions w0)
         (world_before_bind env (Plain x) localOptions w0)) at 1.
    destruct (bindDatabaseRef _ _ _) as [v1 w1].
    cbn [fst snd]. destruct (unref w0 (Plain x)); reflexivity.
  - change (bindDatabaseRef _ _ _) with
      (bindDatabaseRef (closure env (Reactive r) localOptions w0)
         (vars_before_bind env (Reactive r) localOptions w0)
         (world_before_bind env (Reactive r) localOptions w0)) at 1.
    destruct (bindDatabaseRef _ _ _) as [v1 w1].
    cbn [fst snd]. destruct (unref w0 (Reactive r)); reflexivity.
Qed.

Lemma calls_since_app w0 w l : log w = log w0 ++ l → calls_since w0 w = l.
Proof. intros H. unfold calls_since. by rewrite H, drop_app_length. Qed.

Lemma distinct_refs_ne c :
  distinct_refs c →
  data c ≠ error c ∧ data c ≠ pending c ∧ data c ≠ promise c ∧
  error c ≠ pending c ∧ error c ≠ promise c ∧ pending c ≠ promise c.
Proof.
  unfold distinct_refs. rewrite !NoDup_cons, !not_elem_of_cons.
  intros ((? & ? & ? & _) & (? & ? & _) & (? & _) & _). done.
Qed.

Lemma binder_call_later array k c src p : later_call c (binder_call array k c src p).
Proof. by destruct array. Qed.

Lemma extends_refl c s : extends c s s.
Proof. repeat split. exists []. by rewrite app_nil_r. Qed.

Lemma extends_trans c s1 s2 s3 : extends c s1 s2 → extends c s2 s3 → extends c s1 s3.
Proof.
  intros (Ha & Hb & l & Hl & Hf) (Ha' & Hb' & l' & Hl' & Hf').
  split; [congruence|]. split; [congruence|].
  exists (l ++ l'). split; [by rewrite Hl', Hl, app_assoc | by apply Forall_app].
Qed.

Lemma bindDatabaseRef_establishes w0 c v w :
  distinct_refs c → (∃ l, log w = log w0 ++ l) →
  Inv w0 c (bindDatabaseRef c v w).1 (bindDatabaseRef c v w).2
  ∧ extends c (v, w) (bindDatabaseRef c v w).
Proof.
  intros Hd (l & Hl).
  assert (Hread : ∀ (x : Val) (wa wb : World),
    heap wb = heap (write (promise c) x wa) → read wb (promise c) = x).
  { intros x wa wb Hh. unfold read. rewrite Hh. simpl. by rewrite lookup_insert_eq. }
  destruct (truthy (unref w (reference c))) eqn:Htr.
  - destruct (unref w (reference c)) as [| |src] eqn:Hsrc; try discriminate.
    rewrite (bindDatabaseRef_present _ _ _ _ Hsrc). cbn [fst snd]. split.
    + split; [done | | |].
      * exists (next w). split; [by eapply Hread | simpl; lia].
      * eexists. cbn [log]. by rewrite Hl, <- app_assoc.
      * eexists. split; [done|]. intros k [= <-].
        do 3 eexists. erewrite calls_since_app.
        2:{ cbn [log]. by rewrite Hl, <- app_assoc. }
        apply elem_of_app. right. apply list_elem_of_singleton. reflexivity.
    + split; [done|]. split; [done|]. eexists. split; [done|].
      apply Forall_singleton, binder_call_later.
  - rewrite (bindDatabaseRef_absent _ _ _ Htr). cbn [fst snd]. split.
    + split; [done | | by exists l | by exists noop].
      exists (next w). split; [by eapply Hread | simpl; lia].
    + split; [done|]. split; [done|]. exists []. by rewrite app_nil_r.
Qed.

Lemma bindDatabaseRef_inv w0 c v w :
  Inv w0 c v w →
  Inv w0 c (bindDatabaseRef c v w).1 (bindDatabaseRef c v w).2
  ∧ extends c (v, w) (bindDatabaseRef c v w).
Proof.
  intros HI. apply bindDatabaseRef_establishes; [apply HI | apply HI].
Qed.

(** A change of the world that leaves the log, the counter and the
    promise ref alone keeps the invariant. *)
Lemma Inv_frame w0 c v w w' :
  Inv w0 c v w →
  log w' = log w → next w' = next w →
  read w' (promise c) = read w (promise c) →
  Inv w0 c v w'.
Proof.
  intros [Hd Hp Hl Hu] Hlog Hnext Hread.
  split; [done | | |].
  - by rewrite Hread, Hnext.
  - by rewrite Hlog.
  - unfold calls_since in *. by rewrite Hlog.
Qed.

Lemma extends_same_log c v w w' : log w' = log w → extends c (v, w) (v, w').
Proof. intros H. repeat split. exists []. simpl. by rewrite app_nil_r. Qed.

Lemma log_catch_reaction c p w : log (catch_reaction c p w) = log w.
Proof. unfold catch_reaction. repeat case_match; done. Qed.

Lemma next_catch_reaction c p w : next (catch_reaction c p w) = next w.
Proof. unfold catch_reaction. repeat case_match; done. Qed.

Lemma read_catch_reaction c p w a :
  a ≠ error c → read (catch_reaction c p w) a = read w a.
Proof.
  intros H. unfold catch_reaction.
  repeat case_match; try done; rewrite read_set_promises; by rewrite ?read_write_ne.
Qed.

Lemma log_finally_reaction c p w : log (finally_reaction c p w) = log w.
Proof. unfold finally_reaction. repeat case_match; done. Qed.

Lemma next_finally_reaction c p w : next (finally_reaction c p w) = next w.
Proof. unfold finally_reaction. repeat case_match; done. Qed.

Lemma read_finally_reaction c p w a :
  a ≠ pending c → read (finally_reaction c p w) a = read w a.
Proof.
  intros H. unfold finally_reaction.
  repeat case_match; try done; rewrite read_set_promises; by rewrite ?read_write_ne.
Qed.

Lemma log_call_handle mk h w : log (call_handle mk h w) = log w ++ handle_calls mk h.
Proof. destruct h; simpl; by rewrite ?app_nil_r. Qed.

Lemma read_call_handle mk h w a : read (call_handle mk h w) a = read w a.
Proof. by destruct h. Qed.

Lemma next_call_handle mk h w : next (call_handle mk h w) = next w.
Proof. by destruct h. Qed.

Lemma stop_log c v r w : log (world_of (stop c v r w)) = log w ++ stop_calls c v r.
Proof.
  unfold stop, stop_calls.
  replace (match r with Some _ => r | None => reset (options c) end)
    with (override (reset (options c)) r) by done.
  destruct (unbind v) as [h|]; simpl;
    rewrite ?log_call_handle, ?app_nil_r, <- ?app_assoc; done.
Qed.

Lemma stop_read c v r w a : read (world_of (stop c v r w)) a = read w a.
Proof.
  unfold stop. destruct (unbind v); simpl; by rewrite ?read_call_handle.
Qed.

Lemma stop_next c v r w : next (world_of (stop c v r w)) = next w.
Proof.
  unfold stop. destruct (unbind v); simpl; by rewrite ?next_call_handle.
Qed.

Lemma stop_calls_later c v r : Forall (later_call c) (stop_calls c v r).
Proof.
  unfold stop_calls.
  destruct (stopWatcher v), (removePendingPromise v), (unbind v) as [[|]|];
    simpl; repeat constructor.
Qed.

Lemma Inv_more_calls w0 c v w w' l :
  Inv w0 c v w →
  log w' = log w ++ l → (next w ≤ next w')%nat →
  read w' (promise c) = read w (promise c) →
  Inv w0 c v w'.
Proof.
  intros [Hd (q & Hq & Hlt) (l0 & Hl) (h & Hh & Hu)] Hlog Hnext Hread.
  split; [done | | |].
  - exists q. rewrite Hread. split; [done | lia].
  - exists (l0 ++ l). by rewrite Hlog, Hl, app_assoc.
  - exists h. split; [done|]. intros k Hk.
    destruct (Hu k Hk) as (array & src & p & Hin).
    exists array, src, p.
    rewrite (calls_since_app w0 w l0 Hl) in Hin.
    rewrite (calls_since_app w0 w' (l0 ++ l)) by (by rewrite Hlog, Hl, app_assoc).
    apply elem_of_app. by left.
Qed.

Lemma step_inv w0 c e v w :
  Inv w0 c v w →
  Inv w0 c (step c e (v, w)).1 (step c e (v, w)).2
  ∧ extends c (v, w) (step c e (v, w)).
Proof.
  intros HI.
  pose proof (distinct_refs_ne c (inv_distinct _ _ _ _ HI))
    as (Hde & Hdp & Hdq & Hep & Heq & Hpq).
  destruct e as [x| |p x|p reason|x|p|p| |r]; simpl.
  - destruct (reference c); simpl; split;
      try apply extends_refl; try done.
    + eapply Inv_frame; eauto.
    + by apply extends_same_log.
  - destruct (stopWatcher v) as [|h]; [split; [done | apply extends_refl]|].
    destruct (watcher_running h w); [| split; [done | apply extends_refl]].
    by apply bindDatabaseRef_inv.
  - split; [| apply extends_same_log, log_settle].
    eapply Inv_frame; eauto using log_settle, next_settle, read_settle.
  - split; [| apply extends_same_log, log_settle].
    eapply Inv_frame; eauto using log_settle, next_settle, read_settle.
  - split; [| by apply extends_same_log].
    eapply Inv_frame; eauto. by apply read_write_ne.
  - split; [| apply extends_same_log, log_catch_reaction].
    eapply Inv_frame; eauto using log_catch_reaction, next_catch_reaction.
    apply read_catch_reaction. congruence.
  - split; [| apply extends_same_log, log_finally_reaction].
    eapply Inv_frame; eauto using log_finally_reaction, next_finally_reaction.
    apply read_finally_reaction. congruence.
  - destruct (existsb _ _); simpl; [| split; [done | apply extends_refl]].
    split.
    + eapply Inv_more_calls; eauto using stop_log, stop_read.
      by rewrite stop_next.
    + repeat split. simpl. eexists. split; [apply stop_log | apply stop_calls_later].
  - split.
    + eapply Inv_more_calls; eauto using stop_log, stop_read.
      by rewrite stop_next.
    + repeat split. simpl. eexists. split; [apply stop_log | apply stop_calls_later].
Qed.

Lemma run_cons c e es s : run c (e :: es) s = run c es (step c e s).
Proof. done. Qed.

Lemma run_app c es1 es2 s : run c (es1 ++ es2) s = run c es2 (run c es1 s).
Proof. apply foldl_app. Qed.

Lemma run_inv w0 c es v w :
  Inv w0 c v w →
  Inv w0 c (run c es (v, w)).1 (run c es (v, w)).2
  ∧ extends c (v, w) (run c es (v, w)).
Proof.
  revert v w. induction es as [|e es IH]; intros v w HI.
  - split; [done | apply extends_refl].
  - rewrite run_cons. destruct (step c e (v, w)) as [v1 w1] eqn:Hs.
    destruct (step_inv w0 c e v w HI) as [HI1 He1]. rewrite Hs in HI1, He1.
    destruct (IH v1 w1 HI1) as [HI2 He2].
    split; [exact HI2 | eapply extends_trans; [exact He1 | exact He2]].
Qed.

Lemma Inv_vars w0 c v v' w : unbind v' = unbind v → Inv w0 c v w → Inv w0 c v' w.
Proof. intros Hv [Hd Hp Hl Hu]. split; try done. by rewrite Hv. Qed.

Lemma defineProperties_frame r descs w :
  let w' := world_of (defineProperties r descs w) in
  log w' = log w ∧ next w' = next w ∧ promises w' = promises w ∧
  sources w' = sources w ∧ ∀ a, read w' a = read w a.
Proof.
  revert w. induction descs as [|[k g] descs IH]; intros w; simpl; [done|].
  destruct (props w r !! k); simpl; [done|].
  destruct (IH (define_property r k g w)) as (Hl & Hn & Hp & Hs & Hr).
  repeat split; try (etrans; [eassumption | done]).
  intros a. rewrite Hr. apply read_define.
Qed.

(** Defining names the object does not own yet succeeds. *)
Lemma defineProperties_fresh r descs w :
  NoDup descs.*1 →
  (∀ k, k ∈ descs.*1 → props w r !! k = None) →
  ∃ w', defineProperties r descs w = Normal w'
        ∧ props w' r = foldl (λ m d, <[d.1 := d.2]> m) (props w r) descs.
Proof.
  revert w. induction descs as [|[k g] descs IH]; intros w Hnd Hfree; simpl.
  - by eexists.
  - apply NoDup_cons in Hnd as [Hk Hnd].
    rewrite Hfree by (simpl; left).
    destruct (IH (define_property r k g w) Hnd) as (w' & Hw' & Hp).
    + intros k' Hk'. rewrite props_define_eq, lookup_insert_ne; [| by intros ->].
      apply Hfree. simpl. by right.
    + exists w'. split; [done|]. by rewrite Hp, props_define_eq.
Qed.

(** * The state a call leaves *)

Section StartState.
Variables (env : Env) (source : _MaybeRef (_Nullable DataSource))
          (localOptions : Options) (w0 : World).
Hypothesis Hvalid : valid_target localOptions env w0.
Local Abbreviation c := (closure env source localOptions w0).
Local Abbreviation wb := (world_before_bind env source localOptions w0).
Local Abbreviation vb := (vars_before_bind env source localOptions w0).
Local Abbreviation dref := (data_ref env localOptions w0).
Local Abbreviation hydrated := (hydrated_value env source localOptions w0).

Lemma data_ref_allocated : dref < next (hydrated_world env source localOptions w0).
Proof.
  unfold hydrated_world, world_with_data, data_ref. rewrite next_write.
  destruct (target (merged env localOptions)) as [r|] eqn:Ht.
  - by apply Hvalid.
  - simpl. lia.
Qed.

Lemma closure_distinct : distinct_refs c.
Proof.
  pose proof data_ref_allocated as H.
  unfold distinct_refs, closure; cbn [data error pending promise].
  set (n := next (hydrated_world env source localOptions w0)) in *.
  rewrite !NoDup_cons, !not_elem_of_cons.
  repeat split; try lia; try apply not_elem_of_nil. apply NoDup_nil_2.
Qed.

Lemma before_bind_log : log wb = log w0 ++ (watch_calls env source localOptions w0).
Proof.
  unfold world_before_bind, watch_calls, world_with_refs, hydrated_world,
    world_with_data.
  destruct source, (target (merged env localOptions)); simpl; by rewrite ?app_nil_r.
Qed.

Lemma before_bind_sources : sources wb = sources w0.
Proof.
  unfold world_before_bind, world_with_refs, hydrated_world, world_with_data.
  destruct source, (target (merged env localOptions)); done.
Qed.

Lemma before_bind_unref : unref wb (reference c) = unref w0 source.
Proof. unfold unref; simpl. by rewrite before_bind_sources. Qed.

Lemma before_bind_heap :
  heap wb =
    <[promise c := {| value := VUndefined; accessors := ∅ |}]>
      (<[pending c := {| value := VBool false; accessors := ∅ |}]>
         (<[error c := {| value := VUndefined; accessors := ∅ |}]>
            (heap (hydrated_world env source localOptions w0)))).
Proof. unfold world_before_bind, world_with_refs. by destruct source. Qed.

Lemma hydrated_read :
  read (hydrated_world env source localOptions w0) dref = hydrated.
Proof. apply read_write_eq. Qed.

Lemma before_bind_read_data : read wb dref = hydrated.
Proof.
  pose proof data_ref_allocated as H.
  unfold read at 1. rewrite before_bind_heap.
  unfold closure; cbn [error pending promise].
  rewrite !lookup_insert_ne by lia. apply hydrated_read.
Qed.

Lemma before_bind_props_data :
  props wb dref = props (world_with_data env localOptions w0) dref.
Proof.
  pose proof data_ref_allocated as H.
  unfold props at 1. rewrite before_bind_heap.
  unfold closure; cbn [error pending promise].
  rewrite !lookup_insert_ne by lia.
  fold (props (hydrated_world env source localOptions w0) dref).
  apply props_write.
Qed.

Lemma before_bind_read_error : read wb (error c) = VUndefined.
Proof.
  unfold read. rewrite before_bind_heap.
  unfold closure; cbn [error pending promise].
  rewrite !lookup_insert_ne by lia. by rewrite lookup_insert_eq.
Qed.

Lemma before_bind_read_pending : read wb (pending c) = VBool false.
Proof.
  unfold read. rewrite before_bind_heap.
  unfold closure; cbn [error pending promise].
  rewrite !lookup_insert_ne by lia. by rewrite lookup_insert_eq.
Qed.

Lemma registered_eq :
  registered env source localOptions w0 =
    ((start_vars env source localOptions w0),
     {| heap := (heap_after_bind env source localOptions w0);
        sources := sources w0;
        promises := <[first_promise env source localOptions w0 :=
                        first_chain env source localOptions w0]> (promises wb);
        log := log w0 ++ watch_calls env source localOptions w0
               ++ bind_calls env source localOptions w0
               ++ pending_calls env source localOptions w0
               ++ scope_calls env source localOptions w0;
        next := if truthy (unref w0 source)
                then S (pending_handle env source localOptions w0) else S (next wb) |}).
Proof.
  pose proof before_bind_unref as Hu.
  pose proof before_bind_read_data as Hd.
  pose proof data_ref_allocated as Hlt.
  assert (Hsh : shouldStartAsPending vb = is_undefined hydrated).
  { unfold vars_before_bind; cbn [shouldStartAsPending]. by rewrite hydrated_read. }
  assert (Hrd : read (write (pending c) (VBool (shouldStartAsPending vb)) wb) (data c)
                = hydrated).
  { rewrite read_write_ne; [done|].
    unfold closure; cbn [data pending]. lia. }
  unfold registered, start_vars, heap_after_bind, first_chain,
    bind_calls, pending_calls, scope_calls, pending_handle, first_unbind, first_promise.
  destruct (unref w0 source) as [| |src] eqn:Hsrc.
  3:{ rewrite (bindDatabaseRef_present _ _ _ src Hu).
      unfold register_hooks. rewrite Hsrc. cbn [truthy fst snd].
      rewrite Hrd, Hsh, before_bind_log, before_bind_sources.
      match goal with
      | |- context [read ?W (promise c)] =>
          assert (Hp : read W (promise c) = VPromise (next wb))
            by (unfold read, write; cbn [heap set_heap]; by rewrite lookup_insert_eq);
          rewrite Hp
      end.
      f_equal.
      destruct (getCurrentScope env), (getCurrentInstance env);
        unfold record, fresh; cbn [log heap sources promises next fst snd];
        rewrite <- ?app_assoc; cbn [app]; rewrite ?app_nil_r; reflexivity. }
  all: rewrite bindDatabaseRef_absent by (by rewrite Hu);
    unfold register_hooks; rewrite Hsrc; cbn [truthy fst snd];
    rewrite before_bind_log, before_bind_sources;
    f_equal;
    [ unfold set_unbind, vars_before_bind;
      cbn [unbind shouldStartAsPending removePendingPromise stopWatcher];
      by rewrite hydrated_read |];
    destruct (getCurrentScope env), (getCurrentInstance env);
    unfold record, fresh; cbn [log heap sources promises next fst snd];
    rewrite <- ?app_assoc; cbn [app]; rewrite ?app_nil_r; reflexivity.
Qed.

Lemma after_bind_read_promise w :
  heap w = heap_after_bind env source localOptions w0 →
  read w (promise c) = VPromise (first_promise env source localOptions w0).
Proof.
  intros H. unfold read. rewrite H. unfold heap_after_bind, write; cbn [heap set_heap].
  by rewrite lookup_insert_eq.
Qed.

Lemma after_bind_read_pending w :
  heap w = (heap_after_bind env source localOptions w0) →
  read w (pending c) = VBool (truthy (unref w0 source) && is_undefined hydrated).
Proof.
  intros H. unfold read. rewrite H. unfold heap_after_bind.
  change (match heap ?W !! ?a with Some c0 => value c0 | None => VUndefined end)
    with (read W a).
  rewrite read_write_ne by (unfold closure; cbn [pending promise]; lia).
  destruct (truthy (unref w0 source)); cbn [andb].
  - apply read_write_eq.
  - apply before_bind_read_pending.
Qed.

Lemma after_bind_read_error w :
  heap w = (heap_after_bind env source localOptions w0) → read w (error c) = VUndefined.
Proof.
  intros H. unfold read. rewrite H. unfold heap_after_bind.
  change (match heap ?W !! ?a with Some c0 => value c0 | None => VUndefined end)
    with (read W a).
  rewrite read_write_ne by (unfold closure; cbn [error promise]; lia).
  destruct (truthy (unref w0 source)).
  - rewrite read_write_ne by (unfold closure; cbn [error pending]; lia).
    apply before_bind_read_error.
  - apply before_bind_read_error.
Qed.

Lemma after_bind_read_data w :
  heap w = (heap_after_bind env source localOptions w0) → read w dref = hydrated.
Proof.
  pose proof data_ref_allocated as Hlt.
  intros H. unfold read. rewrite H. unfold heap_after_bind.
  change (match heap ?W !! ?a with Some c0 => value c0 | None => VUndefined end)
    with (read W a).
  rewrite read_write_ne by (unfold closure; cbn [promise]; lia).
  destruct (truthy (unref w0 source)).
  - rewrite read_write_ne by (unfold closure; cbn [pending]; lia).
    apply before_bind_read_data.
  - apply before_bind_read_data.
Qed.

Lemma after_bind_props_data w :
  heap w = (heap_after_bind env source localOptions w0) →
  props w dref = props (world_with_data env localOptions w0) dref.
Proof.
  intros H. unfold props at 1. rewrite H. unfold heap_after_bind.
  change (match heap ?W !! ?a with Some c0 => accessors c0 | None => ∅ end)
    with (props W a).
  rewrite props_write.
  destruct (truthy (unref w0 source)); rewrite ?props_write;
    apply before_bind_props_data.
Qed.

Lemma start_facts c1 v1 w1 :
  started (_useDatabaseRef env source localOptions w0) = Some (c1, v1, w1) →
  (StartFacts env source localOptions w0) c1 v1 w1.
Proof.
  intros Hs.
  destruct (written_target_guard env localOptions w0) eqn:Hg.
  { by rewrite useDatabaseRef_guarded in Hs. }
  rewrite (useDatabaseRef_main _ _ _ _ Hg) in Hs.
  pose proof (defineProperties_frame dref
    (descriptors env source localOptions w0)
    (registered env source localOptions w0).2) as (Hl & Hn & Hp & Hsrc & Hr).
  assert (Hw : c1 = c ∧ v1 = (registered env source localOptions w0).1
               ∧ w1 = world_of (defineProperties dref
                        (descriptors env source localOptions w0)
                        (registered env source localOptions w0).2)).
  { destruct (defineProperties _ _ _); by injection Hs as <- <- <-. }
  destruct Hw as (-> & -> & ->). clear Hs.
  rewrite registered_eq in *. cbn [fst snd log next promises sources] in *.
  split; try done.
  - rewrite Hr. by apply after_bind_read_promise.
  - rewrite Hr. by apply after_bind_read_pending.
  - rewrite Hr. by apply after_bind_read_error.
  - rewrite Hr. by apply after_bind_read_data.
Qed.

Lemma start_inv c1 v1 w1 :
  StartFacts env source localOptions w0 c1 v1 w1 → Inv w0 c1 v1 w1.
Proof.
  intros [_ -> -> Hl Hn _ _ Hp _ _ _].
  split.
  - apply closure_distinct.
  - exists (first_promise env source localOptions w0). split; [done|].
    rewrite Hn. unfold first_promise, pending_handle.
    destruct (truthy _); lia.
  - by eexists.
  - eexists. split; [done|]. intros k Hk.
    rewrite (calls_since_app _ _ _ Hl). unfold bind_calls.
    destruct (unref w0 source) as [| |src]; try discriminate.
    injection Hk as <-. do 3 eexists.
    apply elem_of_app. right. apply elem_of_app. left.
    apply list_elem_of_singleton. reflexivity.
Qed.

End StartState.

Example first_call_returns :
  outcome_data first_call = 0
  ∧ has_data_accessor world_after_first_call 0 = true
  ∧ read world_after_first_call 0 = VUndefined.
Proof. vm_compute. repeat split; reflexivity. Qed.

Example second_call_returns_early :
  _useDatabaseRef dev_env (Plain (Present todos)) reuse_target world_after_first_call
  = EarlyReturn 0 world_after_first_call.
Proof. vm_compute. reflexivity. Qed.

(** * C1: the returned value *)

(** The words of the claim: the call returns the data ref, the ref owns
    exactly the five accessors, which yield the refs of this call, and the
    promise ref holds the promise of the bind the call made. *)
Definition returns_augmented_ref (env : Env)
    (source : _MaybeRef (_Nullable DataSource)) (localOptions : Options)
    (w0 : World) : Prop :=
  ∃ c v w,
    _useDatabaseRef env source localOptions w0 = Return (data c) c v w
    ∧ props w (data c) = status_accessors c
    ∧ ∃ p ch, read w (promise c) = VPromise p
              ∧ promises w !! p = Some ch ∧ owner ch = promise c.

Lemma descriptors_accessors env source localOptions w0 :
  foldl (λ m d, <[d.1 := d.2]> m) ∅ (descriptors env source localOptions w0)
  = status_accessors (closure env source localOptions w0).
Proof.
  unfold descriptors, status_accessors. cbn [foldl fst snd].
  apply map_eq. intros k.
  rewrite !lookup_insert, lookup_empty, lookup_singleton.
  repeat case_decide; simplify_eq; done.
Qed.

Lemma world_with_data_props env localOptions w0 :
  plain_target localOptions env w0 →
  props (world_with_data env localOptions w0) (data_ref env localOptions w0) = ∅.
Proof.
  intros Hplain. unfold world_with_data, data_ref.
  destruct (target (merged env localOptions)) as [r|] eqn:Ht.
  - by apply Hplain.
  - apply props_ref_new.
Qed.

(** C1, amended: a call that the development-only check of a written
    target does not cut short, and whose target (if any) is a ref of the
    world that no earlier call has augmented, returns the data ref
    augmented with exactly the accessors data, error, pending, promise and
    stop; they yield the data, error, pending and promise refs of this
    call, and the promise ref holds the promise of the bind it made. *)
Theorem C1_returned_ref_is_augmented env source localOptions w0 :
  written_target_guard env localOptions w0 = false →
  valid_target localOptions env w0 →
  plain_target localOptions env w0 →
  returns_augmented_ref env source localOptions w0.
Proof.
  intros Hg Hvalid Hplain.
  unfold returns_augmented_ref.
  rewrite (useDatabaseRef_main _ _ _ _ Hg).
  pose proof (registered_eq env source localOptions w0 Hvalid) as Hreg.
  assert (Hprops : props (registered env source localOptions w0).2
                     (data_ref env localOptions w0) = ∅).
  { rewrite (after_bind_props_data env source localOptions w0 Hvalid).
    - by apply world_with_data_props.
    - by rewrite Hreg. }
  destruct (defineProperties_fresh (data_ref env localOptions w0)
              (descriptors env source localOptions w0)
              (registered env source localOptions w0).2) as (w' & Hw' & Hp').
  { unfold descriptors. cbn [fmap list_fmap fst].
    rewrite !NoDup_cons, !not_elem_of_cons.
    repeat split; try done; try apply not_elem_of_nil. apply NoDup_nil_2. }
  { intros k _. by rewrite Hprops. }
  pose proof (defineProperties_frame (data_ref env localOptions w0)
    (descriptors env source localOptions w0)
    (registered env source localOptions w0).2) as (_ & _ & Hpr & _ & Hr).
  rewrite Hw' in *. cbn [world_of] in *.
  exists (closure env source localOptions w0), (registered env source localOptions w0).1, w'.
  split; [done|]. split.
  - cbn [data closure]. rewrite Hp', Hprops. apply descriptors_accessors.
  - exists (first_promise env source localOptions w0),
           (first_chain env source localOptions w0).
    split; [| split; [| done]].
    + rewrite Hr. apply (after_bind_read_promise env source localOptions w0).
      by rewrite Hreg.
    + rewrite Hpr, Hreg. cbn [snd promises]. apply lookup_insert_eq.
Qed.

Lemma C1_returned_ref_is_augmented_witness :
  returns_augmented_ref dev_env (Plain (Present todos)) no_options empty_world.
Proof.
  apply C1_returned_ref_is_augmented.
  - vm_compute. reflexivity.
  - intros r Hr. vm_compute in Hr. discriminate.
  - intros r Hr. vm_compute in Hr. discriminate.
Defined.

(** C1 as stated fails: in development mode, a call whose target is the
    ref an earlier call returned comes back from the check of lines 50-58
    with the world unchanged; it creates no error, pending or promise ref
    and binds nothing. *)
Lemma C1_counterexample :
  _useDatabaseRef dev_env (Plain (Present todos)) reuse_target world_after_first_call
  = EarlyReturn 0 world_after_first_call
  ∧ ¬ returns_augmented_ref dev_env (Plain (Present todos)) reuse_target
        world_after_first_call.
Proof.
  split; [apply second_call_returns_early|].
  intros (c & v & w & H & _). rewrite second_call_returns_early in H. discriminate.
Qed.

Lemma effective_ssrKey env localOptions :
  ssrKey (effective_options env localOptions) = ssrKey (merged env localOptions).
Proof. unfold effective_options. by destruct (isSSR env). Qed.

Lemma world_with_data_read env localOptions w0 :
  read (world_with_data env localOptions w0) (data_ref env localOptions w0)
  = prior_value env localOptions w0.
Proof.
  unfold world_with_data, data_ref, prior_value.
  destruct (target (merged env localOptions)); [done|].
  apply read_ref_new.
Qed.

Lemma hydrated_value_eq env source localOptions w0 :
  hydrated_value env source localOptions w0
  = getInitialValue env (unref w0 source) (ssrKey (merged env localOptions))
      (prior_value env localOptions w0) (useFirebaseApp env).
Proof.
  unfold hydrated_value. by rewrite effective_ssrKey, world_with_data_read.
Qed.

(** A call that is not cut short has created its closure. *)
Lemma started_of_main env source localOptions w0 :
  written_target_guard env localOptions w0 = false →
  ∃ c v w, started (_useDatabaseRef env source localOptions w0) = Some (c, v, w)
           ∧ outcome_world (_useDatabaseRef env source localOptions w0) = w
           ∧ outcome_data (_useDatabaseRef env source localOptions w0) = data c.
Proof.
  intros Hg. rewrite (useDatabaseRef_main _ _ _ _ Hg).
  destruct (defineProperties _ _ _); do 3 eexists; done.
Qed.

(** C3, amended: in every call that the development-only check of a
    written target does not cut short, the data ref (the caller's target
    included) holds, when the call is over, the result of getInitialValue
    applied to the unwrapped initial reference, the ssrKey option, the
    value the ref had before and the firebase app. *)
Theorem C3_data_is_hydrated env source localOptions w0 :
  written_target_guard env localOptions w0 = false →
  valid_target localOptions env w0 →
  hydrates_data env source localOptions w0.
Proof.
  intros Hg Hvalid. unfold hydrates_data. cbv zeta.
  destruct (started_of_main env source localOptions w0 Hg) as (c & v & w & Hs & -> & ->).
  destruct (start_facts env source localOptions w0 Hvalid c v w Hs)
    as [_ -> _ _ _ _ _ _ _ _ Hd].
  cbn [data closure]. rewrite Hd. apply hydrated_value_eq.
Qed.

Lemma C3_data_is_hydrated_witness :
  hydrates_data dev_env (Plain (Present todos)) (list_target (Some "todos"))
    world_with_list.
Proof.
  apply C3_data_is_hydrated.
  - vm_compute. reflexivity.
  - intros r Hr. vm_compute in Hr. injection Hr as <-. vm_compute. lia.
Defined.

(** C3 as stated fails: the call of [second_call_returns_early] has the
    ssrKey "todos", for which the server-rendered state holds a list, and
    leaves the data ref undefined. *)
Lemma C3_counterexample :
  ¬ hydrates_data dev_env (Plain (Present todos)) reuse_target world_after_first_call.
Proof.
  unfold hydrates_data. cbv zeta. rewrite second_call_returns_early.
  vm_compute. discriminate.
Qed.

(** * C2: pending and error follow the current promise only *)

Lemma catch_reaction_rejected c p w ch reason :
  promises w !! p = Some ch → owner ch = promise c →
  executor ch = Rejected reason → caught ch = Unsettled →
  catch_reaction c p w =
    set_promises (<[p := {| owner := owner ch; executor := executor ch;
                            caught := Rejected reason; final := final ch |}]> (promises w))
      (if is_current c p w then write (error c) reason w else w).
Proof.
  intros Hp Ho He Hc. unfold catch_reaction. rewrite Hp, Ho, Nat.eqb_refl, He, Hc.
  cbn [negb]. by destruct (is_current c p w).
Qed.

Lemma finally_reaction_settled c p w ch :
  promises w !! p = Some ch → owner ch = promise c →
  caught ch ≠ Unsettled → final ch = Unsettled →
  finally_reaction c p w =
    set_promises (<[p := {| owner := owner ch; executor := executor ch;
                            caught := caught ch; final := caught ch |}]> (promises w))
      (if is_current c p w then write (pending c) (VBool false) w else w).
Proof.
  intros Hp Ho Hc Hf. unfold finally_reaction. rewrite Hp, Ho, Nat.eqb_refl, Hf.
  cbn [negb]. destruct (caught ch); [done| |]; by destruct (is_current c p w).
Qed.

Lemma superseded_catch c p w :
  is_current c p w = false → heap (catch_reaction c p w) = heap w.
Proof.
  intros Hcur. unfold catch_reaction. rewrite Hcur. repeat case_match; done.
Qed.

Lemma superseded_finally c p w :
  is_current c p w = false → heap (finally_reaction c p w) = heap w.
Proof.
  intros Hcur. unfold finally_reaction. rewrite Hcur. repeat case_match; done.
Qed.

Lemma read_heap w w' a : heap w' = heap w → read w' a = read w a.
Proof. intros H. unfold read. by rewrite H. Qed.

(** The events by which promise [p] settles: the binder calling its
    resolve or reject, and its two reactions running. *)
Definition settling_event (p : nat) (e : Event) : Prop :=
  match e with
  | BinderResolves q _ => q = p
  | BinderRejects q _ => q = p
  | CatchReaction q => q = p
  | FinallyReaction q => q = p
  | _ => False
  end.

(** C2: for a promise [p] that a bind of the closure created,
    - when its [.finally] reaction runs while [p] is the promise stored in
      the promise ref, pending.value becomes false, and newPromise settles
      as the promise before it did;
    - when it rejects, the [.catch] reaction sets error.value to the reason
      if [p] is the stored promise, and the rejection is passed on in
      either case;
    - while [p] is not the stored promise, no event by which it settles
      changes pending.value or error.value. *)
Theorem C2_pending_tracks_current_promise c v w p ch :
  promises w !! p = Some ch → owner ch = promise c →
  (caught ch ≠ Unsettled → final ch = Unsettled → is_current c p w = true →
     let w' := (step c (FinallyReaction p) (v, w)).2 in
     read w' (pending c) = VBool false
     ∧ final <$> promises w' !! p = Some (caught ch))
  ∧ (∀ reason, executor ch = Rejected reason → caught ch = Unsettled →
     let w' := (step c (CatchReaction p) (v, w)).2 in
     (is_current c p w = true → read w' (error c) = reason)
     ∧ caught <$> promises w' !! p = Some (Rejected reason)
     ∧ (final ch = Unsettled →
        final <$> promises (step c (FinallyReaction p) (v, w')).2 !! p
        = Some (Rejected reason)))
  ∧ (is_current c p w = false → ∀ e, settling_event p e →
     let w' := (step c e (v, w)).2 in
     read w' (pending c) = read w (pending c)
     ∧ read w' (error c) = read w (error c)).
Proof.
  intros Hp Ho. split; [| split].
  - intros Hc Hf Hcur. cbn [step snd].
    rewrite (finally_reaction_settled c p w ch Hp Ho Hc Hf), Hcur.
    split.
    + rewrite read_set_promises. apply read_write_eq.
    + cbn [promises set_promises]. by rewrite lookup_insert_eq.
  - intros reason He Hc. cbn [step snd].
    rewrite (catch_reaction_rejected c p w ch reason Hp Ho He Hc).
    split; [| split].
    + intros ->. rewrite read_set_promises. apply read_write_eq.
    + cbn [promises set_promises]. by rewrite lookup_insert_eq.
    + intros Hf.
      rewrite (finally_reaction_settled c p _
                 {| owner := owner ch; executor := executor ch;
                    caught := Rejected reason; final := final ch |}).
      * cbn [promises set_promises caught]. by rewrite lookup_insert_eq.
      * cbn [promises set_promises]. apply lookup_insert_eq.
      * done.
      * done.
      * done.
  - intros Hcur e He. destruct e; try done; cbn [settling_event] in He; subst;
      cbn [step snd]; split; apply read_heap;
      try apply heap_settle; try (by apply superseded_catch);
      by apply superseded_finally.
Qed.

Example first_call_started :
  started (_useDatabaseRef dev_env (Plain (Present todos)) no_options empty_world)
  = Some (first_closure, first_vars, world_after_first_call).
Proof. vm_compute. reflexivity. Qed.

Lemma C2_pending_tracks_current_promise_witness :
  let w := (run first_closure [BinderRejects 5 (VError "permission denied")]
              (first_vars, world_after_first_call)).2 in
  read (step first_closure (CatchReaction 5) (first_vars, w)).2 (error first_closure)
  = VError "permission denied".
Proof.
  intros w.
  assert (Hp : promises w !! 5 =
    Some {| owner := 3; executor := Rejected (VError "permission denied");
            caught := Unsettled; final := Unsettled |}) by (vm_compute; reflexivity).
  destruct (C2_pending_tracks_current_promise first_closure first_vars w 5 _ Hp)
    as (_ & H & _); [reflexivity|].
  destruct (H (VError "permission denied")) as (Herr & _); [reflexivity..|].
  apply Herr. vm_compute. reflexivity.
Defined.

(** * States reached after a call *)

Lemma bindDatabaseRef_read_promise c v w :
  read (bindDatabaseRef c v w).2 (promise c) = VPromise (next w).
Proof.
  destruct (truthy (unref w (reference c))) eqn:Htr.
  - destruct (unref w (reference c)) as [| |src] eqn:Hsrc; try discriminate.
    rewrite (bindDatabaseRef_present _ _ _ _ Hsrc). cbn [snd].
    unfold read, write; cbn [heap set_heap]. by rewrite lookup_insert_eq.
  - rewrite (bindDatabaseRef_absent _ _ _ Htr). cbn [snd].
    unfold read, write; cbn [heap set_heap]. by rewrite lookup_insert_eq.
Qed.

Section Reached.
Variables (env : Env) (source : _MaybeRef (_Nullable DataSource))
          (localOptions : Options) (w0 : World).
Hypothesis Hvalid : valid_target localOptions env w0.
Variables (c : Closure) (v1 : Vars) (w1 : World).
Hypothesis Hstart :
  started (_useDatabaseRef env source localOptions w0) = Some (c, v1, w1).
Variables (es : list Event) (v : Vars) (w : World).
Hypothesis Hrun : run c es (v1, w1) = (v, w).

Lemma reached_start : StartFacts env source localOptions w0 c v1 w1.
Proof. by apply start_facts. Qed.

Lemma reached_closure : c = closure env source localOptions w0.
Proof. apply reached_start. Qed.

Lemma reached_inv : Inv w0 c v w.
Proof.
  pose proof (start_inv _ _ _ _ Hvalid _ _ _ reached_start) as HI.
  destruct (run_inv w0 c es v1 w1 HI) as [HI' _]. by rewrite Hrun in HI'.
Qed.

Lemma reached_extends : extends c (v1, w1) (v, w).
Proof.
  pose proof (start_inv _ _ _ _ Hvalid _ _ _ reached_start) as HI.
  destruct (run_inv w0 c es v1 w1 HI) as [_ He]. by rewrite Hrun in He.
Qed.

(** The calls since the start: those of the call itself, then later
    calls only. *)
Lemma reached_calls :
  ∃ l, calls_since w0 w =
         (watch_calls env source localOptions w0
          ++ bind_calls env source localOptions w0
          ++ pending_calls env source localOptions w0
          ++ scope_calls env source localOptions w0) ++ l
       ∧ Forall (later_call c) l.
Proof.
  destruct reached_extends as (_ & _ & l & Hl & Hf). cbn [snd] in Hl.
  exists l. split; [| done].
  apply calls_since_app. rewrite Hl, (sf_log _ _ _ _ _ _ _ reached_start).
  by rewrite <- !app_assoc.
Qed.

Lemma reached_stopWatcher :
  stopWatcher v = if isRef source
                  then Returned (next (world_with_refs env source localOptions w0))
                  else noop.
Proof.
  destruct reached_extends as (Hs & _). cbn [fst] in Hs.
  by rewrite Hs, (sf_vars _ _ _ _ _ _ _ reached_start).
Qed.

Lemma reached_removePendingPromise :
  removePendingPromise v =
    if truthy (unref w0 source)
    then Returned (pending_handle env source localOptions w0) else noop.
Proof.
  destruct reached_extends as (_ & Hs & _). cbn [fst] in Hs.
  by rewrite Hs, (sf_vars _ _ _ _ _ _ _ reached_start).
Qed.

End Reached.

Lemma filter_later (f : Call → bool) c l :
  (∀ call, later_call c call → f call = false) →
  Forall (later_call c) l → List.filter f l = [].
Proof.
  intros Hf. induction 1 as [|call l Hc _ IH]; [done|].
  cbn [List.filter]. by rewrite (Hf call Hc).
Qed.

Lemma later_not_watch c call : later_call c call → is_watch call = false.
Proof. by destruct call. Qed.

Lemma later_not_add_pending c call : later_call c call → is_add_pending call = false.
Proof. by destruct call. Qed.

Lemma later_not_server_prefetch c call :
  later_call c call → is_server_prefetch call = false.
Proof. by destruct call. Qed.

Section CallKinds.
Variables (env : Env) (source : _MaybeRef (_Nullable DataSource))
          (localOptions : Options) (w0 : World).

Lemma filter_watch_bind_calls :
  List.filter is_watch (bind_calls env source localOptions w0) = [].
Proof.
  unfold bind_calls, binder_call. destruct (unref w0 source); [done..|].
  by destruct (isArray _).
Qed.

Lemma filter_watch_pending_calls :
  List.filter is_watch (pending_calls env source localOptions w0) = [].
Proof. unfold pending_calls. by destruct (unref w0 source). Qed.

Lemma filter_watch_scope_calls :
  List.filter is_watch (scope_calls env source localOptions w0) = [].
Proof.
  unfold scope_calls. by destruct (getCurrentScope env), (getCurrentInstance env).
Qed.

Lemma filter_add_pending_watch_calls :
  List.filter is_add_pending (watch_calls env source localOptions w0) = [].
Proof. unfold watch_calls. by destruct source. Qed.

Lemma filter_add_pending_bind_calls :
  List.filter is_add_pending (bind_calls env source localOptions w0) = [].
Proof.
  unfold bind_calls, binder_call. destruct (unref w0 source); [done..|].
  by destruct (isArray _).
Qed.

Lemma filter_add_pending_scope_calls :
  List.filter is_add_pending (scope_calls env source localOptions w0) = [].
Proof.
  unfold scope_calls. by destruct (getCurrentScope env), (getCurrentInstance env).
Qed.

Lemma filter_prefetch_watch_calls :
  List.filter is_server_prefetch (watch_calls env source localOptions w0) = [].
Proof. unfold watch_calls. by destruct source. Qed.

Lemma filter_prefetch_bind_calls :
  List.filter is_server_prefetch (bind_calls env source localOptions w0) = [].
Proof.
  unfold bind_calls, binder_call. destruct (unref w0 source); [done..|].
  by destruct (isArray _).
Qed.

Lemma filter_prefetch_pending_calls :
  List.filter is_server_prefetch (pending_calls env source localOptions w0) = [].
Proof. unfold pending_calls. by destruct (unref w0 source). Qed.
End CallKinds.

(** * C4: rebinding when the reference changes *)

(** C4: when the reference is a ref, the call installs one watcher on it,
    whose callback is bindDatabaseRef: a value written to the reference is
    the one the next bind unwraps, and each run of the callback, while the
    watcher is not stopped, stores a promise that differs from the one
    stored before. When the reference is not a ref there is no watcher
    and no callback to run. At most one watcher is ever created. *)
Theorem C4_reference_changes_rebind env source localOptions w0 c v1 w1 es v w :
  valid_target localOptions env w0 →
  started (_useDatabaseRef env source localOptions w0) = Some (c, v1, w1) →
  run c es (v1, w1) = (v, w) →
  (∀ r, source = Reactive r →
     ∃ h, stopWatcher v = Returned h
       ∧ List.filter is_watch (calls_since w0 w) = [CallWatch h r]
       ∧ (∀ x, unref (step c (SetReference x) (v, w)).2 (reference c) = x)
       ∧ (watcher_running h w = true →
            step c WatcherCallback (v, w) = bindDatabaseRef c v w
            ∧ ∃ p, read (bindDatabaseRef c v w).2 (promise c) = VPromise p
                   ∧ read w (promise c) ≠ VPromise p))
  ∧ (isRef source = false →
       stopWatcher v = noop
       ∧ List.filter is_watch (calls_since w0 w) = []
       ∧ step c WatcherCallback (v, w) = (v, w))
  ∧ (length (List.filter is_watch (calls_since w0 w)) ≤ 1)%nat.
Proof.
  intros Hvalid Hstart Hrun.
  pose proof (reached_closure _ _ _ _ Hvalid _ _ _ Hstart) as Hc.
  pose proof (reached_inv _ _ _ _ Hvalid _ _ _ Hstart _ _ _ Hrun) as HI.
  pose proof (reached_stopWatcher _ _ _ _ Hvalid _ _ _ Hstart _ _ _ Hrun) as Hsw.
  destruct (reached_calls _ _ _ _ Hvalid _ _ _ Hstart _ _ _ Hrun) as (l & Hcalls & Hl).
  assert (Hfilter : List.filter is_watch (calls_since w0 w)
                    = watch_calls env source localOptions w0).
  { rewrite Hcalls, !List.filter_app, filter_watch_bind_calls,
      filter_watch_pending_calls, filter_watch_scope_calls,
      (filter_later is_watch c l (later_not_watch c) Hl), !app_nil_r.
    unfold watch_calls. by destruct source. }
  split; [| split].
  - intros r ->. cbn [isRef] in Hsw. eexists. split; [exact Hsw|].
    split; [by rewrite Hfilter|]. split.
    + intros x. rewrite Hc. cbn [step reference closure snd unref sources set_sources].
      by rewrite lookup_insert_eq.
    + intros Hlive. split.
      * cbn [step]. by rewrite Hsw, Hlive.
      * exists (next w). split; [apply bindDatabaseRef_read_promise|].
        destruct (inv_promise _ _ _ _ HI) as (q & Hq & Hlt).
        rewrite Hq. intros [= ->]. lia.
  - intros Hplain. rewrite Hplain in Hsw. split; [done|]. split.
    + rewrite Hfilter. unfold watch_calls. by destruct source.
    + cbn [step]. by rewrite Hsw.
  - rewrite Hfilter. unfold watch_calls. destruct source; cbn [length]; lia.
Qed.

Example list_call_started :
  started (_useDatabaseRef dev_env (Reactive 1) (list_target None) list_world)
  = Some (list_closure, list_vars, outcome_world list_call).
Proof. vm_compute. reflexivity. Qed.

Example list_target_valid : valid_target (list_target None) dev_env list_world.
Proof. intros r Hr. vm_compute in Hr. injection Hr as <-. vm_compute. lia. Qed.

Lemma C4_reference_changes_rebind_witness :
  (length (List.filter is_watch
     (calls_since list_world
        (run list_closure [SetReference (Present todos); WatcherCallback]
           (list_vars, outcome_world list_call)).2)) ≤ 1)%nat.
Proof.
  eapply (C4_reference_changes_rebind dev_env (Reactive 1) (list_target None)
            list_world list_closure list_vars (outcome_world list_call)
            [SetReference (Present todos); WatcherCallback]).
  - exact list_target_valid.
  - exact list_call_started.
  - apply surjective_pairing.
Defined.

(** * C5: releasing resources *)

Lemma elem_of_existsb (f : Call → bool) (x : Call) (l : list Call) :
  x ∈ l → f x = true → existsb f l = true.
Proof.
  intros Hin Hf. apply existsb_exists. exists x. split; [| done].
  by apply list_elem_of_In.
Qed.

Lemma calls_since_log w0 w l x :
  log w = log w0 ++ l → x ∈ l → x ∈ log w.
Proof. intros -> Hin. apply elem_of_app. by right. Qed.

(** C5: inside an active scope the call registers [stop] with
    onScopeDispose, and disposing the scope runs [stop] without argument.
    [stop(reset)], with reset defaulting to options.reset, makes in order:
    a call of the handle [watch] returned, when the reference is a ref; a
    call of the remover [addPendingPromise] returned, when the initial
    reference was not null; a call, with the reset option, of the
    unsubscribe handle the latest binder call returned, when the latest
    bind had a reference. *)
Theorem C5_stop_releases env source localOptions w0 c v1 w1 es v w :
  valid_target localOptions env w0 →
  started (_useDatabaseRef env source localOptions w0) = Some (c, v1, w1) →
  run c es (v1, w1) = (v, w) →
  (getCurrentScope env = true →
     CallOnScopeDispose (stop_fn c) ∈ calls_since w0 w
     ∧ step c ScopeDispose (v, w) = (v, world_of (stop c v None w)))
  ∧ reset (options c) = reset (merged env localOptions)
  ∧ ∀ r, ∃ w' watcher remover unbinder,
      stop c v r w = Normal w'
      ∧ log w' = log w ++ watcher ++ remover ++ unbinder
      ∧ match source with
        | Reactive a =>
            ∃ h, CallWatch h a ∈ calls_since w0 w ∧ watcher = [CallStopWatcher h]
        | Plain _ => watcher = []
        end
      ∧ match unref w0 source with
        | Present src =>
            ∃ h p, CallAddPendingPromise h p src ∈ calls_since w0 w
                   ∧ remover = [CallRemovePendingPromise h]
        | _ => remover = []
        end
      ∧ match unbind v with
        | Some (Returned k) =>
            (∃ array src p, binder_call array k c src p ∈ calls_since w0 w)
            ∧ unbinder = [CallUnbind k
                            (match r with Some _ => r | None => reset (options c) end)]
        | _ => unbinder = []
        end.
Proof.
  intros Hvalid Hstart Hrun.
  pose proof (reached_closure _ _ _ _ Hvalid _ _ _ Hstart) as Hc.
  pose proof (reached_inv _ _ _ _ Hvalid _ _ _ Hstart _ _ _ Hrun) as HI.
  pose proof (reached_stopWatcher _ _ _ _ Hvalid _ _ _ Hstart _ _ _ Hrun) as Hsw.
  pose proof (reached_removePendingPromise _ _ _ _ Hvalid _ _ _ Hstart _ _ _ Hrun) as Hrp.
  destruct (reached_calls _ _ _ _ Hvalid _ _ _ Hstart _ _ _ Hrun) as (l & Hcalls & Hl).
  destruct (inv_log _ _ _ _ HI) as (l0 & Hlog).
  pose proof (calls_since_app _ _ _ Hlog) as Hcs.
  split; [| split].
  - intros Hscope.
    assert (Hin : CallOnScopeDispose (stop_fn c) ∈ calls_since w0 w).
    { rewrite Hcalls, Hc. unfold scope_calls. rewrite Hscope.
      rewrite !elem_of_app. left. do 3 right. left. }
    split; [done|]. cbn [step].
    rewrite (elem_of_existsb _ (CallOnScopeDispose (stop_fn c)) (log w)); [done| |].
    + eapply calls_since_log; [exact Hlog|]. by rewrite <- Hcs.
    + cbn [is_on_scope_dispose]. apply Nat.eqb_refl.
  - rewrite Hc. cbn [options closure]. unfold effective_options.
    by destruct (isSSR env).
  - intros r. destruct (inv_unbind _ _ _ _ HI) as (hu & Hu & Hbind).
    pose proof (stop_log c v r w) as Hsl.
    unfold stop in *. rewrite Hu in *. cbn [world_of] in Hsl.
    eexists. exists (handle_calls CallStopWatcher (stopWatcher v)),
      (handle_calls CallRemovePendingPromise (removePendingPromise v)),
      (handle_calls (λ k, CallUnbind k
         (match r with Some _ => r | None => reset (options c) end)) hu).
    split; [reflexivity|]. split.
    { rewrite Hsl. unfold stop_calls. by rewrite Hu. }
    split; [| split].
    + rewrite Hsw. destruct source as [x|a]; cbn [isRef handle_calls]; [done|].
      eexists. split; [| reflexivity].
      rewrite Hcalls. unfold watch_calls. rewrite !elem_of_app. do 2 left. left.
    + rewrite Hrp. destruct (unref w0 source) as [| |src] eqn:Hsrc;
        cbn [truthy handle_calls]; [done..|].
      do 2 eexists. split; [| reflexivity].
      rewrite Hcalls. unfold pending_calls. rewrite Hsrc, !elem_of_app.
      left. do 2 right. left. left.
    + destruct hu as [|k]; cbn [handle_calls]; [done|].
      split; [by apply Hbind | done].
Qed.

Lemma C5_stop_releases_witness :
  CallOnScopeDispose (stop_fn list_closure)
    ∈ calls_since list_world (outcome_world list_call).
Proof.
  eapply (C5_stop_releases dev_env (Reactive 1) (list_target None) list_world
            list_closure list_vars (outcome_world list_call) []).
  - exact list_target_valid.
  - exact list_call_started.
  - reflexivity.
  - reflexivity.
Defined.

(** * C6: delegation to the binder *)

(** C6: every bind of a closure the call created, the first one and the
    later ones alike, whose reference unwraps to a data source makes one
    call: bindAsArray when data.value is an array, bindAsObject otherwise,
    with the data ref, the source, the resolve and reject of the promise it
    then stores in the promise ref, and the merged options; the handle the
    binder returned is stored in unbind. *)
Theorem C6_binder_delegation env source localOptions w0 c v1 w1 v w src :
  valid_target localOptions env w0 →
  started (_useDatabaseRef env source localOptions w0) = Some (c, v1, w1) →
  unref w (reference c) = Present src →
  ∃ h p,
    log (bindDatabaseRef c v w).2 =
      log w ++ [if isArray (read w (data c))
                then CallBindAsArray h (data c) src p (options c)
                else CallBindAsObject h (data c) src p (options c)]
    ∧ unbind (bindDatabaseRef c v w).1 = Some (Returned h)
    ∧ read (bindDatabaseRef c v w).2 (promise c) = VPromise p
    ∧ promises (bindDatabaseRef c v w).2 !! p = Some (new_chain (promise c))
    ∧ options c = effective_options env localOptions.
Proof.
  intros Hvalid Hstart Hsrc.
  pose proof (start_facts _ _ _ _ Hvalid _ _ _ Hstart) as Hsf.
  pose proof (start_inv _ _ _ _ Hvalid _ _ _ Hsf) as HI.
  destruct (distinct_refs_ne c (inv_distinct _ _ _ _ HI)) as (_ & Hdp & _).
  exists (S (next w)), (next w).
  split; [| split; [| split; [| split]]].
  - rewrite (bindDatabaseRef_present _ _ _ _ Hsrc). cbn [snd log].
    rewrite read_write_ne by done. reflexivity.
  - by rewrite (bindDatabaseRef_present _ _ _ _ Hsrc).
  - apply bindDatabaseRef_read_promise.
  - rewrite (bindDatabaseRef_present _ _ _ _ Hsrc). cbn [snd promises].
    apply lookup_insert_eq.
  - by rewrite (sf_closure _ _ _ _ _ _ _ Hsf).
Qed.

Lemma C6_binder_delegation_witness :
  ∃ h p,
    log (bindDatabaseRef first_closure first_vars world_after_first_call).2 =
      log world_after_first_call
      ++ [CallBindAsObject h 0 todos p (options first_closure)]
    ∧ unbind (bindDatabaseRef first_closure first_vars world_after_first_call).1
      = Some (Returned h).
Proof.
  destruct (C6_binder_delegation dev_env (Plain (Present todos)) no_options
              empty_world first_closure first_vars world_after_first_call
              first_vars world_after_first_call todos)
    as (h & p & Hlog & Hu & _).
  - intros r Hr. vm_compute in Hr. discriminate.
  - exact first_call_started.
  - vm_compute. reflexivity.
  - exists h, p. split; [exact Hlog | exact Hu].
Defined.

(** * C8: a null reference *)

Lemma catch_reaction_fulfilled c p w ch x :
  promises w !! p = Some ch → owner ch = promise c →
  executor ch = Fulfilled x → caught ch = Unsettled →
  catch_reaction c p w =
    set_promises (<[p := {| owner := owner ch; executor := executor ch;
                            caught := Fulfilled x; final := final ch |}]> (promises w)) w.
Proof.
  intros Hp Ho He Hc. unfold catch_reaction.
  by rewrite Hp, Ho, Nat.eqb_refl, He, Hc.
Qed.

(** C8: a bind whose reference unwraps to null or undefined calls no
    binder, sets unbind to noop and leaves pending.value as it was; the
    promise it stores is resolved with null at once, so that newPromise is
    fulfilled with null as soon as its two reactions have run. *)
Theorem C8_null_reference env source localOptions w0 c v1 w1 v w :
  valid_target localOptions env w0 →
  started (_useDatabaseRef env source localOptions w0) = Some (c, v1, w1) →
  truthy (unref w (reference c)) = false →
  let s := bindDatabaseRef c v w in
  ∃ p,
    read s.2 (promise c) = VPromise p
    ∧ executor <$> promises s.2 !! p = Some (Fulfilled VNull)
    ∧ final <$> promises (run c [CatchReaction p; FinallyReaction p] s).2 !! p
      = Some (Fulfilled VNull)
    ∧ unbind s.1 = Some noop
    ∧ log s.2 = log w
    ∧ read s.2 (pending c) = read w (pending c).
Proof.
  intros Hvalid Hstart Hsrc s. subst s.
  pose proof (start_facts _ _ _ _ Hvalid _ _ _ Hstart) as Hsf.
  pose proof (start_inv _ _ _ _ Hvalid _ _ _ Hsf) as HI.
  destruct (distinct_refs_ne c (inv_distinct _ _ _ _ HI)) as (_ & _ & _ & _ & _ & Hpp).
  exists (next w).
  split; [apply bindDatabaseRef_read_promise|].
  rewrite (bindDatabaseRef_absent _ _ _ Hsrc). cbn [fst snd promises log].
  split; [by rewrite lookup_insert_eq|]. split; [| split; [done | split; [done|]]].
  - cbn [run foldl step].
    erewrite catch_reaction_fulfilled;
      [| cbn [promises]; apply lookup_insert_eq | done | done | done].
    erewrite finally_reaction_settled;
      [| cbn [promises set_promises]; apply lookup_insert_eq | done | done | done].
    cbn [snd promises set_promises caught]. by rewrite lookup_insert_eq.
  - transitivity (read (write (promise c) (VPromise (next w)) w) (pending c)).
    + by apply read_heap.
    + apply read_write_ne. congruence.
Qed.

Lemma C8_null_reference_witness :
  unbind (bindDatabaseRef list_closure list_vars (outcome_world list_call)).1
  = Some noop.
Proof.
  destruct (C8_null_reference dev_env (Reactive 1) (list_target None) list_world
              list_closure list_vars (outcome_world list_call)
              list_vars (outcome_world list_call))
    as (p & _ & _ & _ & Hu & _).
  - exact list_target_valid.
  - exact list_call_started.
  - vm_compute. reflexivity.
  - exact Hu.
Defined.

(** * C7: the pending promise of server rendering *)

(** C7: in every state reached after the call, the calls of
    addPendingPromise made since it began are: one, for the promise the
    first bind stored and the initial source, when the initial reference
    unwrapped to a source; none otherwise. onServerPrefetch is called,
    once, exactly when there is a current scope and a current instance,
    and the hook it is given yields the promise stored at the time it
    runs. *)
Theorem C7_pending_promise_registration env source localOptions w0 c v1 w1 es v w :
  valid_target localOptions env w0 →
  started (_useDatabaseRef env source localOptions w0) = Some (c, v1, w1) →
  run c es (v1, w1) = (v, w) →
  (∃ p1,
     read (bindDatabaseRef c (vars_before_bind env source localOptions w0)
             (world_before_bind env source localOptions w0)).2 (promise c)
       = VPromise p1
     ∧ read w1 (promise c) = VPromise p1
     ∧ match unref w0 source with
       | Present src =>
           ∃ h, List.filter is_add_pending (calls_since w0 w)
                = [CallAddPendingPromise h (VPromise p1) src]
       | _ => List.filter is_add_pending (calls_since w0 w) = []
       end)
  ∧ List.filter is_server_prefetch (calls_since w0 w)
    = (if getCurrentScope env && getCurrentInstance env
       then [CallOnServerPrefetch (promise c)] else [])
  ∧ ∃ q, server_prefetch_hook c w = VPromise q ∧ is_current c q w = true.
Proof.
  intros Hvalid Hstart Hrun.
  pose proof (reached_closure _ _ _ _ Hvalid _ _ _ Hstart) as Hc.
  pose proof (reached_start _ _ _ _ Hvalid _ _ _ Hstart) as Hsf.
  pose proof (reached_inv _ _ _ _ Hvalid _ _ _ Hstart _ _ _ Hrun) as HI.
  destruct (reached_calls _ _ _ _ Hvalid _ _ _ Hstart _ _ _ Hrun) as (l & Hcalls & Hl).
  split; [| split].
  - exists (first_promise env source localOptions w0).
    split; [rewrite Hc; apply bindDatabaseRef_read_promise|].
    split; [rewrite Hc; apply Hsf|].
    rewrite Hcalls, !List.filter_app, filter_add_pending_watch_calls,
      filter_add_pending_bind_calls, filter_add_pending_scope_calls,
      (filter_later is_add_pending c l (later_not_add_pending c) Hl), !app_nil_r.
    unfold pending_calls. destruct (unref w0 source); [done..|].
    by eexists.
  - rewrite Hcalls, !List.filter_app, filter_prefetch_watch_calls,
      filter_prefetch_bind_calls, filter_prefetch_pending_calls,
      (filter_later is_server_prefetch c l (later_not_server_prefetch c) Hl),
      !app_nil_r.
    rewrite Hc. unfold scope_calls.
    by destruct (getCurrentScope env), (getCurrentInstance env).
  - destruct (inv_promise _ _ _ _ HI) as (q & Hq & _).
    exists q. unfold server_prefetch_hook, is_current. rewrite Hq.
    split; [done | apply Nat.eqb_refl].
Qed.

Lemma C7_pending_promise_registration_witness :
  List.filter is_server_prefetch
    (calls_since list_world
       (run list_closure [SetReference (Present todos); WatcherCallback]
          (list_vars, outcome_world list_call)).2)
  = [CallOnServerPrefetch (promise list_closure)].
Proof.
  eapply (C7_pending_promise_registration dev_env (Reactive 1) (list_target None)
            list_world list_closure list_vars (outcome_world list_call)
            [SetReference (Present todos); WatcherCallback]).
  - exact list_target_valid.
  - exact list_call_started.
  - apply surjective_pairing.
Defined.

(** C10: during server-side rendering the options of the closure have
    once set to true whatever the global and the local options say, and
    every binder call made since the call began, by the first bind or by a
    later one, is given options with once set to true. *)
Theorem C10_once_during_ssr env source localOptions w0 c v1 w1 es v w :
  isSSR env = true →
  valid_target localOptions env w0 →
  started (_useDatabaseRef env source localOptions w0) = Some (c, v1, w1) →
  run c es (v1, w1) = (v, w) →
  once (options c) = Some true
  ∧ Forall fetches_once (calls_since w0 w).
Proof.
  intros Hssr Hvalid Hstart Hrun.
  pose proof (reached_closure _ _ _ _ Hvalid _ _ _ Hstart) as Hc.
  destruct (reached_calls _ _ _ _ Hvalid _ _ _ Hstart _ _ _ Hrun) as (l & Hcalls & Hl).
  assert (Honce : once (options c) = Some true).
  { rewrite Hc. cbn [options closure]. unfold effective_options. by rewrite Hssr. }
  split; [done|].
  rewrite Hcalls, !Forall_app. repeat split.
  - unfold watch_calls. destruct source; by repeat constructor.
  - unfold bind_calls, binder_call. rewrite <- Hc.
    destruct (unref w0 source); [constructor..|].
    destruct (isArray _); by repeat constructor.
  - unfold pending_calls. destruct (unref w0 source); by repeat constructor.
  - unfold scope_calls.
    destruct (getCurrentScope env), (getCurrentInstance env); by repeat constructor.
  - eapply Forall_impl; [exact Hl|].
    intros call Hcall. destruct call; try done;
      cbn [later_call fetches_once] in *; by destruct Hcall as [_ ->].
Qed.

Example ssr_call_started :
  started (_useDatabaseRef ssr_env (Plain (Present todos)) not_once empty_world)
  = Some (ssr_closure, ssr_vars, ssr_world).
Proof. vm_compute. reflexivity. Qed.

Lemma C10_once_during_ssr_witness :
  once (options ssr_closure) = Some true
  ∧ Forall fetches_once (calls_since empty_world ssr_world).
Proof.
  eapply (C10_once_during_ssr ssr_env (Plain (Present todos)) not_once empty_world
            ssr_closure ssr_vars ssr_world []).
  - reflexivity.
  - intros r Hr. vm_compute in Hr. discriminate.
  - exact ssr_call_started.
  - reflexivity.
Defined.

(** * C9: when a bind sets pending *)

(** C9 on the code: a list target (data.value is an empty list, so that
    shouldStartAsPending starts as false) and a reference that is null at
    first. The first bind returns at line 90 without reaching line 96.
    When the reference then becomes a source, the rebind calls the binder
    and leaves pending.value false. *)
Lemma C9_rebind_leaves_pending_false :
  let s := run list_closure [SetReference (Present todos); WatcherCallback]
             (list_vars, outcome_world list_call) in
  shouldStartAsPending list_vars = false
  ∧ read s.2 (pending list_closure) = VBool false
  ∧ List.filter is_binder_call (calls_since list_world s.2)
    = [CallBindAsArray 9 0 todos 8 (options list_closure)].
Proof. vm_compute. repeat split; reflexivity. Qed.

(** * Further properties of the code *)

(** ** The pending flag at the first bind and at later ones *)

(** When the call is over, pending.value is true exactly when the initial
    reference unwrapped to a source and data.value was undefined after
    hydration; the flag shouldStartAsPending has been raised by the first
    bind only if it had a source. *)
Theorem first_bind_pending env source localOptions w0 c v1 w1 :
  valid_target localOptions env w0 →
  started (_useDatabaseRef env source localOptions w0) = Some (c, v1, w1) →
  read w1 (pending c)
  = VBool (truthy (unref w0 source) && is_undefined (read w1 (data c)))
  ∧ shouldStartAsPending v1
    = (if truthy (unref w0 source) then true else is_undefined (read w1 (data c))).
Proof.
  intros Hvalid Hstart.
  destruct (start_facts _ _ _ _ Hvalid _ _ _ Hstart)
    as [_ -> -> _ _ _ _ _ Hp _ Hd].
  cbn [data closure]. rewrite Hd. split; [exact Hp | reflexivity].
Qed.

Lemma first_bind_pending_witness :
  read world_after_first_call (pending first_closure) = VBool true.
Proof.
  destruct (first_bind_pending dev_env (Plain (Present todos)) no_options empty_world
              first_closure first_vars world_after_first_call) as [H _].
  - intros r Hr. vm_compute in Hr. discriminate.
  - exact first_call_started.
  - rewrite H. vm_compute. reflexivity.
Defined.

Lemma bindDatabaseRef_flag c v w :
  shouldStartAsPending v = true →
  shouldStartAsPending (bindDatabaseRef c v w).1 = true.
Proof.
  intros Hv. destruct (truthy (unref w (reference c))) eqn:Htr.
  - destruct (unref w (reference c)) as [| |src] eqn:Hsrc; try discriminate.
    by rewrite (bindDatabaseRef_present _ _ _ _ Hsrc).
  - by rewrite (bindDatabaseRef_absent _ _ _ Htr).
Qed.

Lemma step_flag c e v w :
  shouldStartAsPending v = true → shouldStartAsPending (step c e (v, w)).1 = true.
Proof.
  intros Hv. destruct e; cbn [step]; repeat case_match; try done.
  by apply bindDatabaseRef_flag.
Qed.

Lemma run_flag c es v w :
  shouldStartAsPending v = true → shouldStartAsPending (run c es (v, w)).1 = true.
Proof.
  revert v w. induction es as [|e es IH]; intros v w Hv; [done|].
  rewrite run_cons. destruct (step c e (v, w)) as [v' w'] eqn:Hs.
  apply IH. pose proof (step_flag c e v w Hv) as H. by rewrite Hs in H.
Qed.

(** Once shouldStartAsPending is true (the first bind had a source, or no
    value was hydrated), it stays true whatever happens, and every bind
    whose reference unwraps to a source sets pending.value to true. *)
Theorem rebind_sets_pending env source localOptions w0 c v1 w1 es v w src :
  valid_target localOptions env w0 →
  started (_useDatabaseRef env source localOptions w0) = Some (c, v1, w1) →
  run c es (v1, w1) = (v, w) →
  shouldStartAsPending v1 = true →
  unref w (reference c) = Present src →
  shouldStartAsPending v = true
  ∧ read (bindDatabaseRef c v w).2 (pending c) = VBool true.
Proof.
  intros Hvalid Hstart Hrun Hv1 Hsrc.
  pose proof (reached_inv _ _ _ _ Hvalid _ _ _ Hstart _ _ _ Hrun) as HI.
  destruct (distinct_refs_ne c (inv_distinct _ _ _ _ HI)) as (_ & _ & _ & _ & _ & Hpp).
  assert (Hv : shouldStartAsPending v = true).
  { pose proof (run_flag c es v1 w1 Hv1) as H. by rewrite Hrun in H. }
  split; [done|].
  rewrite (bindDatabaseRef_present _ _ _ _ Hsrc). cbn [snd].
  transitivity (read (write (promise c) (VPromise (next w))
                        (write (pending c) (VBool (shouldStartAsPending v)) w))
                  (pending c)).
  - by apply read_heap.
  - rewrite read_write_ne by congruence. by rewrite read_write_eq, Hv.
Qed.

Lemma rebind_sets_pending_witness :
  read (bindDatabaseRef first_closure first_vars world_after_first_call).2
    (pending first_closure) = VBool true.
Proof.
  eapply (rebind_sets_pending dev_env (Plain (Present todos)) no_options empty_world
            first_closure first_vars world_after_first_call []).
  - intros r Hr. vm_compute in Hr. discriminate.
  - exact first_call_started.
  - reflexivity.
  - reflexivity.
  - vm_compute. reflexivity.
Defined.

(** When the check of lines 50-58 does not stop the call (in production it
    never does) and the target already owns a [data] accessor, the call
    hydrates, binds and registers as usual and then fails in
    Object.defineProperties with a TypeError: nothing is returned, and the
    accessors of the target stay those of the earlier call. *)
Theorem written_target_throws env source localOptions w0 r :
  written_target_guard env localOptions w0 = false →
  valid_target localOptions env w0 →
  target (merged env localOptions) = Some r →
  is_Some (props w0 r !! "data") →
  ∃ c v w,
    _useDatabaseRef env source localOptions w0 = TypeError c v w
    ∧ data c = r
    ∧ props w r = props w0 r
    ∧ calls_since w0 w =
        watch_calls env source localOptions w0
        ++ bind_calls env source localOptions w0
        ++ pending_calls env source localOptions w0
        ++ scope_calls env source localOptions w0.
Proof.
  intros Hg Hvalid Ht [g Hdata].
  rewrite (useDatabaseRef_main _ _ _ _ Hg).
  pose proof (registered_eq env source localOptions w0 Hvalid) as Hreg.
  assert (Hdref : data_ref env localOptions w0 = r).
  { unfold data_ref. by rewrite Ht. }
  assert (Hprops : props (registered env source localOptions w0).2 r = props w0 r).
  { rewrite <- Hdref.
    rewrite (after_bind_props_data env source localOptions w0 Hvalid)
      by (by rewrite Hreg).
    unfold world_with_data. by rewrite Ht. }
  unfold descriptors. cbn [defineProperties]. cbn [data closure].
  rewrite Hdref, Hprops, Hdata.
  do 3 eexists. split; [reflexivity|]. cbn [data closure].
  split; [done|]. split; [done|].
  apply calls_since_app. by rewrite Hreg.
Qed.

Lemma written_target_throws_witness :
  ∃ c v w,
    _useDatabaseRef prod_env (Plain (Present todos)) reuse_target
      world_after_first_call = TypeError c v w.
Proof.
  destruct (written_target_throws prod_env (Plain (Present todos)) reuse_target
              world_after_first_call 0) as (c & v & w & H & _).
  - vm_compute. reflexivity.
  - intros r Hr. vm_compute in Hr. injection Hr as <-. vm_compute. lia.
  - vm_compute. reflexivity.
  - vm_compute. eexists. reflexivity.
  - by exists c, v, w.
Defined.

(** ** The refs of a call *)

(** The error, pending and promise refs of a call are objects that did not
    exist before it; they differ from each other and from the data ref,
    which is the target when there is one and a new ref otherwise. *)
Theorem status_refs_are_new env source localOptions w0 c v1 w1 :
  valid_target localOptions env w0 →
  started (_useDatabaseRef env source localOptions w0) = Some (c, v1, w1) →
  distinct_refs c
  ∧ (next w0 ≤ error c)%nat ∧ (next w0 ≤ pending c)%nat ∧ (next w0 ≤ promise c)%nat
  ∧ data c = match target (merged env localOptions) with
             | Some r => r
             | None => next w0
             end.
Proof.
  intros Hvalid Hstart.
  destruct (start_facts _ _ _ _ Hvalid _ _ _ Hstart) as [_ -> _ _ _ _ _ _ _ _ _].
  split; [by apply closure_distinct|].
  assert (Hn : (next w0 ≤ next (hydrated_world env source localOptions w0))%nat).
  { unfold hydrated_world, world_with_data. rewrite next_write.
    destruct (target (merged env localOptions)); cbn [ref fresh snd set_heap next]; lia. }
  cbn [error pending promise data closure]. repeat split; lia || done.
Qed.

Lemma status_refs_are_new_witness : distinct_refs list_closure.
Proof.
  eapply (status_refs_are_new dev_env (Reactive 1) (list_target None) list_world
            list_closure list_vars (outcome_world list_call)).
  - exact list_target_valid.
  - exact list_call_started.
Defined.

Lemma bindDatabaseRef_read_other c v w a :
  a ≠ pending c → a ≠ promise c → read (bindDatabaseRef c v w).2 a = read w a.
Proof.
  intros Hp Hq. destruct (truthy (unref w (reference c))) eqn:Htr.
  - destruct (unref w (reference c)) as [| |src] eqn:Hsrc; try discriminate.
    rewrite (bindDatabaseRef_present _ _ _ _ Hsrc). cbn [snd].
    transitivity (read (write (promise c) (VPromise (next w))
                          (write (pending c) (VBool (shouldStartAsPending v)) w)) a).
    + by apply read_heap.
    + by rewrite !read_write_ne.
  - rewrite (bindDatabaseRef_absent _ _ _ Htr). cbn [snd].
    transitivity (read (write (promise c) (VPromise (next w)) w) a).
    + by apply read_heap.
    + by rewrite read_write_ne.
Qed.

(** In a state reached after a call, error.value is changed by nothing but
    a [.catch] reaction: a rebind, also a successful one, does not clear an
    error that an earlier bind left; data.value is changed by nothing but
    the binder: binding, settling and stopping leave it as it is. *)
Theorem error_and_data_are_kept env source localOptions w0 c v1 w1 es v w e :
  valid_target localOptions env w0 →
  started (_useDatabaseRef env source localOptions w0) = Some (c, v1, w1) →
  run c es (v1, w1) = (v, w) →
  (is_catch_reaction e = false →
     read (step c e (v, w)).2 (error c) = read w (error c))
  ∧ (is_binder_write e = false →
     read (step c e (v, w)).2 (data c) = read w (data c)).
Proof.
  intros Hvalid Hstart Hrun.
  pose proof (reached_inv _ _ _ _ Hvalid _ _ _ Hstart _ _ _ Hrun) as HI.
  destruct (distinct_refs_ne c (inv_distinct _ _ _ _ HI))
    as (Hde & Hdp & Hdq & Hep & Heq & Hpq).
  split; intros He; destruct e; try discriminate; cbn [step];
    repeat case_match; cbn [snd];
    rewrite ?stop_read, ?read_settle; try done;
    try (apply bindDatabaseRef_read_other; congruence);
    try (apply read_write_ne; congruence);
    try (apply read_catch_reaction; congruence);
    try (apply read_finally_reaction; congruence).
  all: unfold resolve, reject; by rewrite read_settle.
Qed.

Lemma error_and_data_are_kept_witness :
  let w := (run first_closure
              [BinderRejects 5 (VError "permission denied"); CatchReaction 5]
              (first_vars, world_after_first_call)).2 in
  read (step first_closure WatcherCallback (first_vars, w)).2 (error first_closure)
  = VError "permission denied".
Proof.
  intros w.
  destruct (error_and_data_are_kept dev_env (Plain (Present todos)) no_options
              empty_world first_closure first_vars world_after_first_call
              [BinderRejects 5 (VError "permission denied"); CatchReaction 5]
              first_vars w WatcherCallback) as [H _].
  - intros r Hr. vm_compute in Hr. discriminate.
  - exact first_call_started.
  - vm_compute. reflexivity.
  - rewrite H by reflexivity. vm_compute. reflexivity.
Defined.

Lemma watcher_running_more h w w' l :
  log w' = log w ++ l → watcher_running h w = false → watcher_running h w' = false.
Proof.
  unfold watcher_running. intros -> H. rewrite existsb_app.
  apply negb_false_iff in H. by rewrite H.
Qed.

Lemma inert_more v w w' l : log w' = log w ++ l → inert v w → inert v w'.
Proof.
  unfold inert. destruct (stopWatcher v); [done|]. apply watcher_running_more.
Qed.

Lemma filter_binder_stop_calls c v r :
  List.filter is_binder_call (stop_calls c v r) = [].
Proof.
  unfold stop_calls.
  by destruct (stopWatcher v), (removePendingPromise v), (unbind v) as [[|]|].
Qed.

Lemma step_inert c e v w :
  inert v w →
  inert (step c e (v, w)).1 (step c e (v, w)).2
  ∧ List.filter is_binder_call (log (step c e (v, w)).2)
    = List.filter is_binder_call (log w).
Proof.
  intros Hi.
  assert (Hsame : ∀ w', log w' = log w →
            inert v w' ∧ List.filter is_binder_call (log w')
                         = List.filter is_binder_call (log w)).
  { intros w' Hl. split; [| by rewrite Hl].
    apply (inert_more v w w' []); [by rewrite app_nil_r | done]. }
  assert (Hstop : ∀ r,
            inert v (world_of (stop c v r w))
            ∧ List.filter is_binder_call (log (world_of (stop c v r w)))
              = List.filter is_binder_call (log w)).
  { intros r. split.
    - eapply inert_more; [apply stop_log | done].
    - by rewrite stop_log, List.filter_app, filter_binder_stop_calls, app_nil_r. }
  destruct e; cbn [step].
  - destruct (reference c); cbn [fst snd]; by apply Hsame.
  - unfold inert in Hi. destruct (stopWatcher v) as [|h] eqn:Hs; cbn [fst snd].
    + unfold inert. by rewrite Hs.
    + rewrite Hi. cbn [fst snd]. unfold inert. by rewrite Hs.
  - cbn [fst snd]. apply Hsame, log_settle.
  - cbn [fst snd]. apply Hsame, log_settle.
  - cbn [fst snd]. by apply Hsame.
  - cbn [fst snd]. apply Hsame, log_catch_reaction.
  - cbn [fst snd]. apply Hsame, log_finally_reaction.
  - destruct (existsb _ _); cbn [fst snd]; [apply Hstop | by apply Hsame].
  - cbn [fst snd]. apply Hstop.
Qed.

Lemma run_inert c es v w :
  inert v w →
  List.filter is_binder_call (log (run c es (v, w)).2)
  = List.filter is_binder_call (log w).
Proof.
  revert v w. induction es as [|e es IH]; intros v w Hi; [done|].
  rewrite run_cons. destruct (step_inert c e v w Hi) as [Hi' Hf].
  destruct (step c e (v, w)) as [v' w']. cbn [fst snd] in *.
  by rewrite (IH v' w' Hi').
Qed.

(** Once [stop] has been called, with any argument, no later event makes a
    binder call: a change of the reference no longer rebinds. *)
Theorem stopped_never_rebinds c v w r es :
  List.filter is_binder_call
    (log (run c es (step c (StopCalled r) (v, w))).2)
  = List.filter is_binder_call (log w).
Proof.
  cbn [step]. rewrite run_inert.
  - by rewrite stop_log, List.filter_app, filter_binder_stop_calls, app_nil_r.
  - unfold inert. destruct (stopWatcher v) as [|h] eqn:Hs; [done|].
    unfold watcher_running. rewrite stop_log. unfold stop_calls. rewrite Hs.
    cbn [handle_calls]. rewrite !existsb_app. cbn [existsb is_stop_watcher].
    by rewrite Nat.eqb_refl, orb_true_r.
Qed.

Lemma filter_binder_bind_calls env source localOptions w0 :
  List.filter is_binder_call (bind_calls env source localOptions w0)
  = bind_calls env source localOptions w0.
Proof.
  unfold bind_calls, binder_call. destruct (unref w0 source); [done..|].
  by destruct (isArray _).
Qed.

Lemma filter_binder_start_calls env source localOptions w0 :
  List.filter is_binder_call
    (watch_calls env source localOptions w0
     ++ bind_calls env source localOptions w0
     ++ pending_calls env source localOptions w0
     ++ scope_calls env source localOptions w0)
  = bind_calls env source localOptions w0.
Proof.
  rewrite !List.filter_app, filter_binder_bind_calls.
  unfold watch_calls, pending_calls, scope_calls.
  destruct source, (unref w0 _), (getCurrentScope env), (getCurrentInstance env);
    cbn [List.filter is_binder_call app]; by rewrite ?app_nil_r.
Qed.

(** The first bind runs after hydration: when the initial reference
    unwraps to a source, the one binder call the call makes is bindAsArray
    exactly when the value given by getInitialValue is an array, whatever
    the target held before. *)
Theorem first_bind_sees_hydrated_value env source localOptions w0 c v1 w1 src :
  valid_target localOptions env w0 →
  started (_useDatabaseRef env source localOptions w0) = Some (c, v1, w1) →
  unref w0 source = Present src →
  ∃ h p,
    List.filter is_binder_call (calls_since w0 w1) =
      [if isArray (getInitialValue env (Present src) (ssrKey (merged env localOptions))
                     (prior_value env localOptions w0) (useFirebaseApp env))
       then CallBindAsArray h (data c) src p (options c)
       else CallBindAsObject h (data c) src p (options c)].
Proof.
  intros Hvalid Hstart Hsrc.
  destruct (reached_calls _ _ _ _ Hvalid _ _ _ Hstart [] v1 w1 eq_refl)
    as (l & Hcalls & Hl).
  pose proof (reached_closure _ _ _ _ Hvalid _ _ _ Hstart) as Hc.
  pose proof (reached_extends _ _ _ _ Hvalid _ _ _ Hstart [] v1 w1 eq_refl)
    as (_ & _ & l' & Hl' & _).
  cbn [snd] in Hl'.
  assert (l = []) as ->.
  { pose proof (sf_log _ _ _ _ _ _ _ (reached_start _ _ _ _ Hvalid _ _ _ Hstart)) as Hlog.
    pose proof (calls_since_app _ _ _ Hlog) as Hcs. rewrite Hcs in Hcalls.
    rewrite <- (app_nil_r (watch_calls _ _ _ _ ++ _)) in Hcalls at 1.
    by apply app_inv_head in Hcalls. }
  rewrite Hcalls, app_nil_r, filter_binder_start_calls.
  unfold bind_calls. rewrite Hsrc, hydrated_value_eq, Hsrc, <- Hc.
  do 2 eexists. unfold binder_call. reflexivity.
Qed.

Lemma first_bind_sees_hydrated_value_witness :
  ∃ h p,
    List.filter is_binder_call
      (calls_since world_with_list
         (outcome_world (_useDatabaseRef dev_env (Plain (Present todos))
                           (list_target (Some "todos")) world_with_list)))
    = [CallBindAsArray h 0 todos p
         (options (closure dev_env (Plain (Present todos))
                     (list_target (Some "todos")) world_with_list))].
Proof.
  destruct (first_bind_sees_hydrated_value dev_env (Plain (Present todos))
              (list_target (Some "todos")) world_with_list
              (closure dev_env (Plain (Present todos)) (list_target (Some "todos"))
                 world_with_list)
              (start_vars dev_env (Plain (Present todos)) (list_target (Some "todos"))
                 world_with_list)
              (outcome_world (_useDatabaseRef dev_env (Plain (Present todos))
                                (list_target (Some "todos")) world_with_list))
              todos) as (h & p & H).
  - intros r Hr. vm_compute in Hr. injection Hr as <-. vm_compute. lia.
  - vm_compute. reflexivity.
  - reflexivity.
  - exists h, p. exact H.
Defined.

(** A reference that is not a ref is bound by the call itself and never
    again: in every state reached, the binder calls made since the call
    began are those of the first bind. *)
Theorem plain_reference_binds_once env source localOptions w0 c v1 w1 es v w :
  valid_target localOptions env w0 →
  started (_useDatabaseRef env source localOptions w0) = Some (c, v1, w1) →
  run c es (v1, w1) = (v, w) →
  isRef source = false →
  List.filter is_binder_call (calls_since w0 w)
  = bind_calls env source localOptions w0
  ∧ (length (List.filter is_binder_call (calls_since w0 w)) ≤ 1)%nat.
Proof.
  intros Hvalid Hstart Hrun Hplain.
  pose proof (reached_start _ _ _ _ Hvalid _ _ _ Hstart) as Hsf.
  pose proof (reached_inv _ _ _ _ Hvalid _ _ _ Hstart _ _ _ Hrun) as HI.
  destruct (inv_log _ _ _ _ HI) as (l & Hlog).
  assert (Hi : inert v1 w1).
  { unfold inert. rewrite (sf_vars _ _ _ _ _ _ _ Hsf). cbn [stopWatcher start_vars].
    by rewrite Hplain. }
  pose proof (run_inert c es v1 w1 Hi) as Hf. rewrite Hrun in Hf. cbn [snd] in Hf.
  rewrite Hlog, (sf_log _ _ _ _ _ _ _ Hsf), !List.filter_app in Hf.
  apply app_inv_head in Hf.
  rewrite <- !List.filter_app, filter_binder_start_calls in Hf.
  rewrite (calls_since_app _ _ _ Hlog), Hf.
  split; [done|]. unfold bind_calls. destruct (unref w0 source); cbn [length]; lia.
Qed.

Lemma plain_reference_binds_once_witness :
  (length (List.filter is_binder_call
     (calls_since empty_world
        (run first_closure [WatcherCallback; BinderWrites (VArr []); WatcherCallback]
           (first_vars, world_after_first_call)).2)) ≤ 1)%nat.
Proof.
  eapply (plain_reference_binds_once dev_env (Plain (Present todos)) no_options
            empty_world first_closure first_vars world_after_first_call
            [WatcherCallback; BinderWrites (VArr []); WatcherCallback]).
  - intros r Hr. vm_compute in Hr. discriminate.
  - exact first_call_started.
  - apply surjective_pairing.
  - reflexivity.
Defined.

Lemma filter_unbind_binder_call array h c src p :
  is_unbind (binder_call array h c src p) = false.
Proof. by destruct array. Qed.

Lemma bindDatabaseRef_no_unbind c v w :
  List.filter is_unbind (log (bindDatabaseRef c v w).2)
  = List.filter is_unbind (log w).
Proof.
  destruct (truthy (unref w (reference c))) eqn:Htr.
  - destruct (unref w (reference c)) as [| |src] eqn:Hsrc; try discriminate.
    rewrite (bindDatabaseRef_present _ _ _ _ Hsrc). cbn [snd log].
    rewrite List.filter_app. cbn [List.filter].
    by rewrite filter_unbind_binder_call, app_nil_r.
  - by rewrite (bindDatabaseRef_absent _ _ _ Htr).
Qed.

Lemma step_no_unbind c e v w :
  is_stop_event e = false →
  List.filter is_unbind (log (step c e (v, w)).2) = List.filter is_unbind (log w).
Proof.
  intros He. destruct e; try discriminate; cbn [step];
    repeat case_match; cbn [snd];
    rewrite ?log_catch_reaction, ?log_finally_reaction; try done.
  - apply bindDatabaseRef_no_unbind.
  - unfold resolve. by rewrite log_settle.
  - unfold reject. by rewrite log_settle.
Qed.

Lemma run_no_unbind c es v w :
  Forall (λ e, is_stop_event e = false) es →
  List.filter is_unbind (log (run c es (v, w)).2) = List.filter is_unbind (log w).
Proof.
  intros Hes. revert v w. induction Hes as [|e es He _ IH]; intros v w; [done|].
  rewrite run_cons. destruct (step c e (v, w)) as [v' w'] eqn:Hs.
  rewrite IH. pose proof (step_no_unbind c e v w He) as H. by rewrite Hs in H.
Qed.

(** Neither the call nor a rebind calls an unsubscribe handle: as long as
    [stop] has not run, however often the reference changed, no binder
    subscription has been released; the handle of an earlier bind is
    overwritten by the next bind without being called. *)
Theorem rebind_keeps_earlier_subscription env source localOptions w0 c v1 w1 es v w :
  valid_target localOptions env w0 →
  started (_useDatabaseRef env source localOptions w0) = Some (c, v1, w1) →
  run c es (v1, w1) = (v, w) →
  Forall (λ e, is_stop_event e = false) es →
  List.filter is_unbind (calls_since w0 w) = [].
Proof.
  intros Hvalid Hstart Hrun Hes.
  pose proof (reached_start _ _ _ _ Hvalid _ _ _ Hstart) as Hsf.
  pose proof (reached_inv _ _ _ _ Hvalid _ _ _ Hstart _ _ _ Hrun) as HI.
  destruct (inv_log _ _ _ _ HI) as (l & Hlog).
  pose proof (run_no_unbind c es v1 w1 Hes) as Hf. rewrite Hrun in Hf. cbn [snd] in Hf.
  rewrite Hlog, (sf_log _ _ _ _ _ _ _ Hsf), !List.filter_app in Hf.
  apply app_inv_head in Hf.
  rewrite (calls_since_app _ _ _ Hlog), Hf.
  unfold watch_calls, bind_calls, binder_call, pending_calls, scope_calls.
  destruct source, (unref w0 _), (getCurrentScope env), (getCurrentInstance env);
    try destruct (isArray _); reflexivity.
Qed.

Lemma rebind_keeps_earlier_subscription_witness :
  List.filter is_unbind
    (calls_since list_world
       (run list_closure
          [SetReference (Present todos); WatcherCallback;
           SetReference (Present (DatabaseReference "archive")); WatcherCallback]
          (list_vars, outcome_world list_call)).2) = [].
Proof.
  eapply (rebind_keeps_earlier_subscription dev_env (Reactive 1) (list_target None)
            list_world list_closure list_vars (outcome_world list_call)).
  - exact list_target_valid.
  - exact list_call_started.
  - apply surjective_pairing.
  - repeat constructor.
Defined.

(** After two rebinds [stop] releases the subscription of the last bind
    only: one unsubscribe call for two binder calls. *)
Example stop_releases_last_subscription_only :
  let s := run list_closure
             [SetReference (Present todos); WatcherCallback;
              SetReference (Present (DatabaseReference "archive")); WatcherCallback;
              StopCalled None]
             (list_vars, outcome_world list_call) in
  length (List.filter is_binder_call (calls_since list_world s.2)) = 2
  ∧ List.filter is_unbind (calls_since list_world s.2) = [CallUnbind 11 None].
Proof. vm_compute. split; reflexivity. Qed.

(** ** Superseded promises *)

Lemma bindDatabaseRef_next c v w : (next w < next (bindDatabaseRef c v w).2)%nat.
Proof.
  destruct (truthy (unref w (reference c))) eqn:Htr.
  - destruct (unref w (reference c)) as [| |src] eqn:Hsrc; try discriminate.
    rewrite (bindDatabaseRef_present _ _ _ _ Hsrc). cbn [snd next]. lia.
  - rewrite (bindDatabaseRef_absent _ _ _ Htr). cbn [snd next]. lia.
Qed.

(** A step keeps the stored promise and the counter, or stores the promise
    named by the counter and moves the counter on. *)
Lemma step_promise w0 c e v w :
  Inv w0 c v w →
  (read (step c e (v, w)).2 (promise c) = read w (promise c)
   ∧ next (step c e (v, w)).2 = next w)
  ∨ (read (step c e (v, w)).2 (promise c) = VPromise (next w)
     ∧ (next w < next (step c e (v, w)).2)%nat).
Proof.
  intros HI.
  destruct (distinct_refs_ne c (inv_distinct _ _ _ _ HI))
    as (_ & _ & Hdq & _ & Heq & Hpq).
  destruct e; cbn [step].
  - destruct (reference c); left; done.
  - destruct (stopWatcher v) as [|h]; [by left|].
    destruct (watcher_running h w); [| by left].
    right. split; [apply bindDatabaseRef_read_promise | apply bindDatabaseRef_next].
  - left. cbn [snd]. unfold resolve. by rewrite read_settle, next_settle.
  - left. cbn [snd]. unfold reject. by rewrite read_settle, next_settle.
  - left. cbn [snd]. split; [by apply read_write_ne | done].
  - left. cbn [snd]. split; [apply read_catch_reaction; congruence
                            | apply next_catch_reaction].
  - left. cbn [snd]. split; [apply read_finally_reaction; congruence
                            | apply next_finally_reaction].
  - left. destruct (existsb _ _); cbn [snd]; [| done].
    by rewrite stop_read, stop_next.
  - left. cbn [snd]. by rewrite stop_read, stop_next.
Qed.

Lemma run_superseded w0 c es v w p :
  Inv w0 c v w → is_current c p w = false → (p < next w)%nat →
  is_current c p (run c es (v, w)).2 = false.
Proof.
  revert v w. induction es as [|e es IH]; intros v w HI Hcur Hlt; [done|].
  rewrite run_cons.
  destruct (step_inv w0 c e v w HI) as [HI' _].
  destruct (step_promise w0 c e v w HI) as [[Hr Hn]|[Hr Hn]];
    destruct (step c e (v, w)) as [v' w']; cbn [fst snd] in *;
    apply IH; try done.
  - unfold is_current in *. by rewrite Hr.
  - lia.
  - unfold is_current. rewrite Hr. apply Nat.eqb_neq. lia.
  - lia.
Qed.

(** A promise that a bind has superseded does not become the stored
    promise again, whatever happens later; so, by C2, its settling never
    changes pending.value or error.value: a late rejection of the old
    reference does not show as an error of the new one. *)
Theorem superseded_promise_stays_superseded
    env source localOptions w0 c v1 w1 es v w p es' e :
  valid_target localOptions env w0 →
  started (_useDatabaseRef env source localOptions w0) = Some (c, v1, w1) →
  run c es (v1, w1) = (v, w) →
  is_current c p w = false → (p < next w)%nat →
  settling_event p e →
  let s := run c es' (v, w) in
  is_current c p s.2 = false
  ∧ read (step c e s).2 (pending c) = read s.2 (pending c)
  ∧ read (step c e s).2 (error c) = read s.2 (error c).
Proof.
  intros Hvalid Hstart Hrun Hcur Hlt He s.
  pose proof (reached_inv _ _ _ _ Hvalid _ _ _ Hstart _ _ _ Hrun) as HI.
  assert (Hs : is_current c p s.2 = false) by (by eapply run_superseded).
  split; [done|].
  destruct s as [v' w']. cbn [snd] in *.
  destruct e; try done; cbn [settling_event] in He; subst;
    cbn [step snd]; split; apply read_heap;
    try apply heap_settle; try (by apply superseded_catch);
    by apply superseded_finally.
Qed.

Lemma superseded_promise_stays_superseded_witness :
  is_current list_closure 8
    (run list_closure [BinderRejects 8 (VError "permission denied")]
       (twice_rebound.1, twice_rebound.2)).2 = false.
Proof.
  pose proof (superseded_promise_stays_superseded dev_env (Reactive 1)
                (list_target None) list_world list_closure list_vars
                (outcome_world list_call)
                [SetReference (Present todos); WatcherCallback;
                 SetReference (Present (DatabaseReference "archive")); WatcherCallback]
                twice_rebound.1 twice_rebound.2 8
                [BinderRejects 8 (VError "permission denied")]
                (CatchReaction 8)
                list_target_valid list_call_started
                (surjective_pairing twice_rebound)) as H.
  cbv zeta in H. apply H.
  - vm_compute. reflexivity.
  - vm_compute. lia.
  - reflexivity.
Defined.
